(** * hotenv: the [.env] parser, the snapshot store and the lifecycle guards

    A shallow embedding of [hotenv/hotenv.go].  Go strings are byte
    sequences and are modelled by [string] (a list of [ascii] bytes); the
    [map[string]string] of a [config] is a [gmap string string]; the
    package-level variables form the record [world], and every exported
    function is a function from [world] to [world] (and a result).  What
    lives outside the process (files, the process environment) is the
    record [os]. *)

From Stdlib Require Import String Ascii List Bool Arith Lia.
From stdpp Require Import base option strings gmap.

Import ListNotations.
Local Open Scope list_scope.
Local Open Scope string_scope.

(** ** Bytes and the [strings] package *)

Module GoStrings.

(** The two quote bytes the parser looks for, and the line terminator. *)
Definition squote : ascii := "039"%char.
Definition dquote : ascii := "034"%char.
Definition nl : string := String "010"%char EmptyString.

(** [string(r)] for a rune below [utf8.RuneSelf]: a one-byte string. *)
Definition string_of_byte (c : ascii) : string := String c EmptyString.

(** [s[i]] *)
Definition byte_at (s : string) (i : nat) : option ascii := String.get i s.

(** [s[i:j]] *)
Definition slice (s : string) (i j : nat) : string := substring i (j - i) s.

(** [strings.HasPrefix]: [len(s) >= len(prefix) && s[:len(prefix)] == prefix] *)
Definition HasPrefix (s pre : string) : bool :=
  (String.length pre <=? String.length s)%nat
  && String.eqb (slice s 0 (String.length pre)) pre.

(** [strings.HasSuffix]: [len(s) >= len(suffix) && s[len(s)-len(suffix):] == suffix] *)
Definition HasSuffix (s suf : string) : bool :=
  (String.length suf <=? String.length s)%nat
  && String.eqb (slice s (String.length s - String.length suf) (String.length s)) suf.

(** [strings.TrimPrefix] *)
Definition TrimPrefix (s pre : string) : string :=
  if HasPrefix s pre then slice s (String.length pre) (String.length s) else s.

(** [strings.TrimSuffix] *)
Definition TrimSuffix (s suf : string) : string :=
  if HasSuffix s suf then slice s 0 (String.length s - String.length suf) else s.

(** [strings.SplitN(s, "=", 2)]: the text before and after the first [=],
    or [s] alone when it holds none. *)
Fixpoint cut_eq (s : string) : option (string * string) :=
  match s with
  | EmptyString => None
  | String c r =>
      if Ascii.eqb c "="%char then Some (EmptyString, r)
      else match cut_eq r with
           | Some (a, b) => Some (String c a, b)
           | None => None
           end
  end.

Definition SplitN_eq_2 (s : string) : list string :=
  match cut_eq s with
  | Some (a, b) => [a; b]
  | None => [s]
  end.

(** *** [strings.TrimSpace]

    [TrimSpace] removes leading and trailing runes for which
    [unicode.IsSpace] holds.  A white-space rune is one of the code points
    below, and a rune is decoded from a Go string exactly when the bytes at
    that place are its (shortest) UTF-8 encoding, so trimming is stated on
    the encodings: one-byte, two-byte and three-byte. *)

Definition space1 (a : ascii) : bool :=
  let n := nat_of_ascii a in
  (((9 <=? n) && (n <=? 13)) || (n =? 32))%nat.          (* \t \n \v \f \r and ' ' *)

Definition space2 (a b : ascii) : bool :=
  let n := nat_of_ascii a in let m := nat_of_ascii b in
  ((n =? 194) && ((m =? 133) || (m =? 160)))%nat.        (* U+0085, U+00A0 *)

Definition space3 (a b c : ascii) : bool :=
  let n := nat_of_ascii a in let m := nat_of_ascii b in let k := nat_of_ascii c in
  (((n =? 225) && (m =? 154) && (k =? 128))         (* U+1680 *)
   || ((n =? 226) && (m =? 128)
       && (((128 <=? k) && (k <=? 138))             (* U+2000 .. U+200A *)
           || (k =? 168) || (k =? 169) || (k =? 175))) (* U+2028 U+2029 U+202F *)
   || ((n =? 226) && (m =? 129) && (k =? 159))      (* U+205F *)
   || ((n =? 227) && (m =? 128) && (k =? 128)))%nat. (* U+3000 *)

(** Leading white space: drop encodings of white-space runes from the front. *)
Fixpoint TrimLeftSpace (s : string) : string :=
  match s with
  | EmptyString => EmptyString
  | String a s1 =>
      if space1 a then TrimLeftSpace s1 else
      match s1 with
      | EmptyString => s
      | String b s2 =>
          if space2 a b then TrimLeftSpace s2 else
          match s2 with
          | EmptyString => s
          | String c s3 => if space3 a b c then TrimLeftSpace s3 else s
          end
      end
  end.

(** Trailing white space, on the reversed bytes: the last rune of a string
    is decoded from its last one, two or three bytes. *)
Fixpoint TrimLeftSpace_rev (s : string) : string :=
  match s with
  | EmptyString => EmptyString
  | String a s1 =>
      if space1 a then TrimLeftSpace_rev s1 else
      match s1 with
      | EmptyString => s
      | String b s2 =>
          if space2 b a then TrimLeftSpace_rev s2 else
          match s2 with
          | EmptyString => s
          | String c s3 => if space3 c b a then TrimLeftSpace_rev s3 else s
          end
      end
  end.

Definition TrimRightSpace (s : string) : string :=
  String.rev (TrimLeftSpace_rev (String.rev s)).

Definition TrimSpace (s : string) : string := TrimRightSpace (TrimLeftSpace s).

End GoStrings.

Import GoStrings.

(** ** The outside world: files and the process environment *)

(** A Go [error] value, kept as its message. *)
Definition error := string.

(** What [os.Open] followed by a [bufio.Scanner] over the file delivers:
    either the open fails, or [sc.Scan()] yields the lines in order and
    [sc.Err()] is then [nil] or an error (a read failure, a line that is
    too long). *)
Inductive file :=
| OpenFails (e : error)
| Scanned (lines : list string) (scan_err : option error).

Record os := {
  files : string -> file;             (* the file at a path *)
  environ : gmap string string;       (* the process environment *)
}.

(** [os.Getenv]: the value, or the empty string when the variable is unset. *)
Definition os_Getenv (o : os) (key : string) : string :=
  default "" (environ o !! key).

(** ** The parser: [loadEnvFile] *)

(** [type config struct { m map[string]string }] *)
Record config := { m : gmap string string }.

(** Indexing a Go map: the zero value for a missing key. *)
Definition map_index (mp : gmap string string) (key : string) : string :=
  default "" (mp !! key).

Module Parser.

(** The local variables of [loadEnvFile] that live across loop iterations. *)
Record pstate := {
  out : gmap string string;
  key : string;
  value : string;
  inMultiline : bool;
  quote : ascii;
}.

(** State at loop entry: [out := make(...)], the other variables zero. *)
Definition pinit : pstate :=
  {| out := ∅; key := ""; value := ""; inMultiline := false; quote := zero |}.

Definition is_quote (c : ascii) : bool :=
  Ascii.eqb c squote || Ascii.eqb c dquote.

(** The head of a loop iteration in the normal state, up to the assignment
    of [key] and [value] (lines 199-208): [None] is a [continue]. *)
Definition candidate (line : string) : option (string * string) :=
  let trim := TrimSpace line in
  if String.eqb trim "" || HasPrefix trim "#" then None
  else match SplitN_eq_2 trim with
       | [k; v] => Some (TrimSpace k, TrimSpace v)
       | _ => None
       end.

(** [out[key] = v; key, value = "", ""] *)
Definition store (s : pstate) (k v : string) : pstate :=
  {| out := <[k := v]> (out s); key := ""; value := "";
     inMultiline := inMultiline s; quote := quote s |}.

(** The rest of the iteration in the normal state (lines 210-228), with
    [key] and [value] just assigned. *)
Definition assign (s : pstate) (k v : string) : pstate :=
  let unquoted := store s k v in
  if (2 <=? String.length v)%nat then
    match byte_at v 0, byte_at v (String.length v - 1) with
    | Some start, Some end_ =>
        if is_quote start && Ascii.eqb end_ start then
          store s k (TrimSuffix (TrimPrefix v (string_of_byte start))
                                (string_of_byte start))
        else if is_quote start && negb (Ascii.eqb end_ start) then
          {| out := out s; key := k;
             value := TrimPrefix v (string_of_byte start) ++ nl;
             inMultiline := true; quote := start |}
        else unquoted
    | _, _ => unquoted          (* not reached: both indices are in range *)
    end
  else unquoted.

(** One iteration of [for sc.Scan()] on the line [sc.Text()]. *)
Definition step (s : pstate) (line : string) : pstate :=
  if negb (inMultiline s) then
    match candidate line with
    | None => s
    | Some (k, v) => assign s k v
    end
  else
    if HasSuffix line (string_of_byte (quote s)) then
      {| out := <[key s := value s ++ TrimSuffix line (string_of_byte (quote s))]> (out s);
         key := ""; value := ""; inMultiline := false; quote := quote s |}
    else
      {| out := out s; key := key s; value := value s ++ line ++ nl;
         inMultiline := true; quote := quote s |}.

Definition run (s : pstate) (lines : list string) : pstate :=
  fold_left step lines s.

(** [loadEnvFile], given what the file at [path] delivers. *)
Definition loadEnvFile (o : os) (path : string) : config * option error :=
  match files o path with
  | OpenFails e => ({| m := ∅ |}, Some e)
  | Scanned lines scan_err => ({| m := out (run pinit lines) |}, scan_err)
  end.

End Parser.

(** ** Package state and the public API *)

(** What is handed to [optLogger]. *)
Inductive logmsg :=
| InitialLoadFailed (e : error)
| Reloaded (keys : nat)
| ReloadFailed (e : error).

(** The package-level variables.  [cfg] is the [atomic.Value]: [None] until
    the first [Store].  A [sync.Once] is the flag "Do has run".
    [cancelFunc] is [false] for [nil]; calling it cancels the context of
    the watcher, recorded in [ctxDone].  [watching] is the path the
    [watchAndReload] goroutine was launched on.  The logger is a function
    value; it is kept as the name of the sink, and [logged] records what
    each sink was handed. *)
Record world := {
  cfg : option config;
  initOnce : bool;
  stopOnce : bool;
  cancelFunc : bool;
  ctxDone : bool;
  watching : option string;
  defaultPath : string;
  optFallbackToProcessEnv : bool;
  optLogger : string;
  logged : list (string * logmsg);
}.

(** The state at program start: every [var] holds its initialiser, or the
    zero value of its type where it has none ([atomic.Bool] starts [false]). *)
Definition world0 : world :=
  {| cfg := None; initOnce := false; stopOnce := false; cancelFunc := false;
     ctxDone := false; watching := None; defaultPath := "/app/secrets/.env";
     optFallbackToProcessEnv := false;
     optLogger := "log.Printf"; logged := [] |}.

Definition set_cfg (c : config) (w : world) : world :=
  {| cfg := Some c; initOnce := initOnce w; stopOnce := stopOnce w;
     cancelFunc := cancelFunc w; ctxDone := ctxDone w; watching := watching w;
     defaultPath := defaultPath w;
     optFallbackToProcessEnv := optFallbackToProcessEnv w;
     optLogger := optLogger w; logged := logged w |}.

Definition log (msg : logmsg) (w : world) : world :=
  {| cfg := cfg w; initOnce := initOnce w; stopOnce := stopOnce w;
     cancelFunc := cancelFunc w; ctxDone := ctxDone w; watching := watching w;
     defaultPath := defaultPath w;
     optFallbackToProcessEnv := optFallbackToProcessEnv w;
     optLogger := optLogger w;
     logged := logged w ++ [(optLogger w, msg)] |}.

(** The path [ensureStarted] settles on (lines 90-96). *)
Definition resolve_path (o : os) (path : string) (w : world) : string :=
  if String.eqb path "" then
    let p := os_Getenv o "SECRETS_FILE" in
    if negb (String.eqb p "") then p else defaultPath w
  else path.

(** The initial load (lines 98-103). *)
Definition initial_load (o : os) (path : string) (w : world) : world :=
  match Parser.loadEnvFile o path with
  | (c, None) => set_cfg c w
  | (_, Some e) => set_cfg {| m := ∅ |} (log (InitialLoadFailed e) w)
  end.

(** [ensureStarted]: the body runs under [initOnce.Do]. *)
Definition ensureStarted (o : os) (path : string) (w : world) : world :=
  if initOnce w then w
  else
    let path := resolve_path o path w in
    let w1 := initial_load o path w in
    {| cfg := cfg w1; initOnce := true; stopOnce := stopOnce w1;
       cancelFunc := true; ctxDone := false; watching := Some path;
       defaultPath := defaultPath w1;
       optFallbackToProcessEnv := optFallbackToProcessEnv w1;
       optLogger := optLogger w1; logged := logged w1 |}.

(** [get] *)
Definition get (o : os) (key : string) (w : world) : string :=
  let tier2 :=
    if optFallbackToProcessEnv w then
      let v := os_Getenv o key in
      if negb (String.eqb v "") then v else ""
    else "" in
  match cfg w with
  | Some cur =>
      let v := map_index (m cur) key in
      if negb (String.eqb v "") then v else tier2
  | None => tier2
  end.

(** [Getenv(key, def...)] *)
Definition Getenv (o : os) (key : string) (def : list string) (w : world)
  : string * world :=
  let w1 := ensureStarted o "" w in
  let v := get o key w1 in
  match def with
  | d :: _ => if String.eqb v "" then (d, w1) else (v, w1)
  | [] => (v, w1)
  end.

(** [Init] *)
Definition Init (o : os) (path : string) (w : world) : world :=
  ensureStarted o path w.

(** [Stop]: the body runs under [stopOnce.Do]. *)
Definition Stop (w : world) : world :=
  if stopOnce w then w
  else
    {| cfg := cfg w; initOnce := initOnce w; stopOnce := true;
       cancelFunc := cancelFunc w;
       ctxDone := if cancelFunc w then true else ctxDone w;
       watching := watching w; defaultPath := defaultPath w;
       optFallbackToProcessEnv := optFallbackToProcessEnv w;
       optLogger := optLogger w; logged := logged w |}.

(** [WithFallbackToProcessEnv] *)
Definition WithFallbackToProcessEnv (enabled : bool) (w : world) : world :=
  {| cfg := cfg w; initOnce := initOnce w; stopOnce := stopOnce w;
     cancelFunc := cancelFunc w; ctxDone := ctxDone w; watching := watching w;
     defaultPath := defaultPath w;
     optFallbackToProcessEnv := enabled;
     optLogger := optLogger w; logged := logged w |}.

(** [WithDefaultPath] *)
Definition WithDefaultPath (path : string) (w : world) : world :=
  if negb (String.eqb path "") then
    {| cfg := cfg w; initOnce := initOnce w; stopOnce := stopOnce w;
       cancelFunc := cancelFunc w; ctxDone := ctxDone w; watching := watching w;
       defaultPath := path;
       optFallbackToProcessEnv := optFallbackToProcessEnv w;
       optLogger := optLogger w; logged := logged w |}
  else w.

(** [WithLogger]: [None] is a [nil] function. *)
Definition WithLogger (fn : option string) (w : world) : world :=
  match fn with
  | Some f =>
      {| cfg := cfg w; initOnce := initOnce w; stopOnce := stopOnce w;
         cancelFunc := cancelFunc w; ctxDone := ctxDone w; watching := watching w;
         defaultPath := defaultPath w;
         optFallbackToProcessEnv := optFallbackToProcessEnv w;
         optLogger := f; logged := logged w |}
  | None => w
  end.

(** The function given to [time.AfterFunc] in [watchAndReload] (lines
    150-157), run when the debounce timer fires. *)
Definition reload (o : os) (filePath : string) (w : world) : world :=
  match Parser.loadEnvFile o filePath with
  | (c, None) => log (Reloaded (size (m c))) (set_cfg c w)
  | (_, Some e) => log (ReloadFailed e) w
  end.

(** What can happen to the package state, one call or one timer at a time.
    A timer exists only once the watcher has been launched. *)
Inductive op :=
| OpGetenv (key : string) (def : list string)
| OpInit (path : string)
| OpStop
| OpWithFallbackToProcessEnv (enabled : bool)
| OpWithDefaultPath (path : string)
| OpWithLogger (fn : option string)
| OpTimerFires.

Definition exec (w : world) (e : os * op) : world :=
  let (o, a) := e in
  match a with
  | OpGetenv key def => snd (Getenv o key def w)
  | OpInit path => Init o path w
  | OpStop => Stop w
  | OpWithFallbackToProcessEnv b => WithFallbackToProcessEnv b w
  | OpWithDefaultPath p => WithDefaultPath p w
  | OpWithLogger fn => WithLogger fn w
  | OpTimerFires =>
      match watching w with
      | Some filePath => reload o filePath w
      | None => w
      end
  end.

(** A run: each step sees the files and the environment of its moment. *)
Definition execs (w : world) (tr : list (os * op)) : world :=
  fold_left exec tr w.

(** ** Auxiliary definitions used in the statements *)

(** The text a run of unterminated lines adds to a pending value. *)
Definition joined (lines : list string) : string :=
  fold_right (fun l acc => l ++ nl ++ acc) "" lines.

(** Sample lines of a [.env] file. *)
Definition ex_quoted_line : string :=
  "KEY=" ++ String dquote ("a b c" ++ string_of_byte dquote).
Definition ex_lone_quote_line : string := "Q = '".
Definition ex_open_line : string := "MULTI=" ++ String dquote "line one".
Definition ex_close_line : string := "line three" ++ string_of_byte dquote.

(** The lookup policy in the words of the specification (section 4.3):
    the snapshot's value if the snapshot contains the key with a non-empty
    value; else, with the fallback enabled, the value the process
    environment defines for the key if it is non-empty; else the caller's
    default if one was supplied; else the empty string. *)
Definition lookup_policy (snapshot : gmap string string) (fallback : bool)
    (env : gmap string string) (key : string) (def : option string) : string :=
  match snapshot !! key with
  | Some (String c r) => String c r
  | _ =>
      match (if fallback then env !! key else None) with
      | Some (String c r) => String c r
      | _ => match def with
             | Some d => d
             | None => ""
             end
      end
  end.

(** A process whose file is empty and whose environment defines one
    variable; a file that cannot be opened; a file with one assignment. *)
Definition ex_os : os :=
  {| files := fun _ => Scanned [] None;
     environ := {[ "GREETING_TEXT" := "Hello" ]} |}.

Definition ex_os_unreadable : os :=
  {| files := fun _ => OpenFails "permission denied"; environ := ∅ |}.

Definition ex_os_port : os :=
  {| files := fun _ => Scanned ["PORT=8080"] None; environ := ∅ |}.

(** An unterminated multi-line value after a complete assignment. *)
Definition ex_os_unterminated : os :=
  {| files := fun _ => Scanned ["A=1"; "K='abc"; "more"] None; environ := ∅ |}.

(** The fallback switched on before the first start, then [Init("")]. *)
Definition ex_started : world :=
  Init ex_os "" (WithFallbackToProcessEnv true world0).

(** Before the start has run there is no cancel function and no watcher. *)
Definition not_started_yet (w : world) : Prop :=
  initOnce w = false ->
  cancelFunc w = false /\ ctxDone w = false /\ watching w = None.

(** The stop guard is spent and the watcher's context is live. *)
Definition stop_spent (w : world) : Prop :=
  stopOnce w = true /\ ctxDone w = false
  /\ (initOnce w = true -> cancelFunc w = true /\ is_Some (watching w)).


(** ** Lines as a file would hold them *)

(** Does [s] start (resp. end, on the reversed bytes) with the encoding of
    a white-space rune? *)
Definition lead_space (s : string) : bool :=
  match s with
  | EmptyString => false
  | String a s1 =>
      space1 a
      || match s1 with
         | EmptyString => false
         | String b s2 =>
             space2 a b
             || match s2 with
                | EmptyString => false
                | String c _ => space3 a b c
                end
         end
  end.

Definition lead_space_rev (s : string) : bool :=
  match s with
  | EmptyString => false
  | String a s1 =>
      space1 a
      || match s1 with
         | EmptyString => false
         | String b s2 =>
             space2 b a
             || match s2 with
                | EmptyString => false
                | String c _ => space3 c b a
                end
         end
  end.

(** A byte below [utf8.RuneSelf] that is not white space. *)
Definition plain_byte (x : ascii) : bool :=
  (nat_of_ascii x <? 128)%nat && negb (space1 x).

(** A key as a line can carry it: no white space around it, no [=] in it,
    and no [#] in front. *)
Definition key_ok (k : string) : bool :=
  String.eqb (TrimSpace k) k
  && match cut_eq k with Some _ => false | None => true end
  && negb (HasPrefix k "#").

(** A value the parser takes as it stands: no white space around it, and
    not two bytes or more starting with a quote. *)
Definition value_unquoted (v : string) : bool :=
  String.eqb (TrimSpace v) v
  && negb ((2 <=? String.length v)%nat
           && match v with
              | String c _ => Parser.is_quote c
              | EmptyString => false
              end).

(** One assignment on one line: [KEY=value], or [KEY='value'] with either
    quote. *)
Inductive entry :=
| Plain (k v : string)
| Quoted (q : ascii) (k v : string).

Definition entry_key (e : entry) : string :=
  match e with Plain k _ | Quoted _ k _ => k end.

Definition entry_value (e : entry) : string :=
  match e with Plain _ v | Quoted _ _ v => v end.

Definition entry_line (e : entry) : string :=
  match e with
  | Plain k v => k ++ "=" ++ v
  | Quoted q k v => k ++ "=" ++ String q (v ++ string_of_byte q)
  end.

Definition entry_ok (e : entry) : bool :=
  match e with
  | Plain k v => key_ok k && value_unquoted v
  | Quoted q k _ => key_ok k && Parser.is_quote q
  end.

(** The assignments of a list of entries, made in order. *)
Definition assigned (es : list entry) (mp : gmap string string)
  : gmap string string :=
  fold_left (fun mp e => <[entry_key e := entry_value e]> mp) es mp.

(** A small file: two keys, the first assigned twice. *)
Definition ex_entries : list entry :=
  [Plain "PORT" "8080"; Quoted dquote "GREETING_TEXT" "hello from test";
   Plain "PORT" "9090"].

Definition ex_os_entries : os :=
  {| files := fun _ => Scanned (map entry_line ex_entries) None; environ := ∅ |}.

(** The housekeeping of the loop variables of [loadEnvFile]. *)
Definition loop_invariant (s : Parser.pstate) : Prop :=
  if Parser.inMultiline s
  then Parser.is_quote (Parser.quote s) = true
       /\ exists txt, Parser.value s = txt ++ nl
  else Parser.key s = "" /\ Parser.value s = "".

(** The first non-empty string of a list, or [d]. *)
Fixpoint first_nonempty (l : list string) (d : string) : string :=
  match l with
  | [] => d
  | x :: l => if String.eqb x "" then first_nonempty l d else x
  end.

(** ASCII white space only, and a byte below [utf8.RuneSelf]. *)
Fixpoint blanks (p : string) : bool :=
  match p with
  | EmptyString => true
  | String a r => space1 a && blanks r
  end.

Definition low_byte (x : ascii) : bool := (nat_of_ascii x <? 128)%nat.

Definition starts_low (r : string) : bool :=
  match r with
  | EmptyString => true
  | String x _ => low_byte x
  end.

(** An assignment with blanks before the key, around [=] and after the
    value. *)
Definition padded_line (p1 p2 p3 p4 : string) (e : entry) : string :=
  match e with
  | Plain k v => p1 ++ k ++ p2 ++ "=" ++ p3 ++ v ++ p4
  | Quoted q k v =>
      p1 ++ k ++ p2 ++ "=" ++ p3 ++ String q (v ++ string_of_byte q) ++ p4
  end.

(** What every key of a parsed mapping satisfies. *)
Definition key_shape (k : string) : Prop :=
  TrimSpace k = k /\ cut_eq k = None.

Definition keys_invariant (s : Parser.pstate) : Prop :=
  (forall k, is_Some (Parser.out s !! k) -> key_shape k)
  /\ (Parser.inMultiline s = true -> key_shape (Parser.key s)).

(** * Facts about the string primitives *)

Section StringFacts.

Lemma length_app_string (a b : string) :
  String.length (a ++ b) = String.length a + String.length b.
Proof. induction a as [|c a IH]; simpl; [reflexivity | now rewrite IH]. Qed.

Lemma substring_all (s : string) : substring 0 (String.length s) s = s.
Proof. induction s as [|c s IH]; simpl; [reflexivity | now rewrite IH]. Qed.

Lemma substring_front (a b : string) :
  substring 0 (String.length a) (a ++ b) = a.
Proof.
  induction a as [|c a IH]; simpl.
  - now destruct b.
  - now rewrite IH.
Qed.

Lemma substring_back (a b : string) :
  substring (String.length a) (String.length b) (a ++ b) = b.
Proof.
  induction a as [|c a IH]; simpl; [apply substring_all | exact IH].
Qed.

Lemma slice_front (a b : string) :
  slice (a ++ b) 0 (String.length (a ++ b) - String.length b) = a.
Proof.
  unfold slice. rewrite length_app_string.
  replace (String.length a + String.length b - String.length b - 0)
    with (String.length a) by lia.
  apply substring_front.
Qed.

Lemma slice_back (a b : string) :
  slice (a ++ b) (String.length (a ++ b) - String.length b)
        (String.length (a ++ b)) = b.
Proof.
  unfold slice. rewrite length_app_string.
  replace (String.length a + String.length b - String.length b)
    with (String.length a) by lia.
  replace (String.length a + String.length b - String.length a)
    with (String.length b) by lia.
  apply substring_back.
Qed.

Lemma HasSuffix_app (a b : string) : HasSuffix (a ++ b) b = true.
Proof.
  unfold HasSuffix. rewrite slice_back, String.eqb_refl, andb_true_r.
  apply Nat.leb_le. rewrite length_app_string. lia.
Qed.

Lemma TrimSuffix_app (a b : string) : TrimSuffix (a ++ b) b = a.
Proof. unfold TrimSuffix. now rewrite HasSuffix_app, slice_front. Qed.

Lemma TrimPrefix_byte (c : ascii) (r : string) :
  TrimPrefix (String c r) (string_of_byte c) = r.
Proof.
  unfold TrimPrefix, HasPrefix, slice, string_of_byte. simpl.
  rewrite Ascii.eqb_refl, Nat.sub_0_r.
  replace (substring 0 0 r) with "" by now destruct r.
  apply substring_all.
Qed.

(** A string whose last byte is [e] is some text followed by [e]. *)
Lemma last_byte_shape (s : string) (e : ascii) :
  byte_at s (String.length s - 1) = Some e ->
  exists body, s = body ++ string_of_byte e.
Proof.
  unfold byte_at, string_of_byte.
  induction s as [|c s IH]; cbn [String.length]; [discriminate|].
  destruct s as [|d s].
  - cbn. intros [= ->]. now exists "".
  - cbn [String.length] in *.
    replace (S (S (String.length s)) - 1) with (S (String.length s)) by lia.
    replace (S (String.length s) - 1) with (String.length s) in IH by lia.
    cbn [String.get]. intros H. destruct (IH H) as [body Hb].
    exists (String c body). cbn. now rewrite Hb.
Qed.

Lemma last_byte_app (a : string) (e : ascii) :
  byte_at (a ++ string_of_byte e) (String.length (a ++ string_of_byte e) - 1)
  = Some e.
Proof.
  unfold byte_at, string_of_byte. rewrite length_app_string. cbn [String.length].
  replace (String.length a + 1 - 1) with (String.length a) by lia.
  induction a as [|c a IH]; [reflexivity | exact IH].
Qed.

(** The one-byte suffix test is a test of the last byte. *)
Lemma HasSuffix_byte_false (s : string) (q : ascii) :
  HasSuffix s (string_of_byte q) = false ->
  byte_at s (String.length s - 1) <> Some q.
Proof.
  intros Hs Hb. destruct (last_byte_shape _ _ Hb) as [body ->].
  now rewrite HasSuffix_app in Hs.
Qed.

End StringFacts.

(** * The parser *)

Module ParserFacts.
Import Parser.

Lemma append_cons (x : ascii) (a b : string) :
  String x a ++ b = String x (a ++ b).
Proof. reflexivity. Qed.

Lemma append_assoc (a b c : string) : (a ++ b) ++ c = a ++ b ++ c.
Proof.
  induction a as [|x a IH]; [reflexivity|].
  now rewrite !append_cons, IH.
Qed.

Lemma append_empty_r (a : string) : a ++ "" = a.
Proof.
  induction a as [|x a IH]; [reflexivity|].
  now rewrite append_cons, IH.
Qed.

Lemma get_in_range (s : string) (n : nat) :
  n < String.length s -> exists c, String.get n s = Some c.
Proof.
  revert n. induction s as [|x s IH]; simpl; intros n Hn; [lia|].
  destruct n as [|n]; [now exists x | apply IH; lia].
Qed.

Lemma run_snoc (s : pstate) (lines : list string) (l : string) :
  run s (lines ++ [l])%list = step (run s lines) l.
Proof. unfold run. now rewrite fold_left_app. Qed.

Lemma run_cons (s : pstate) (lines : list string) (l : string) :
  run s (l :: lines) = run (step s l) lines.
Proof. reflexivity. Qed.

Lemma step_normal (s : pstate) (line k v : string) :
  inMultiline s = false -> candidate line = Some (k, v) ->
  step s line = assign s k v.
Proof. intros Hm Hc. unfold step. now rewrite Hm, Hc. Qed.

Lemma assign_short (s : pstate) (k v : string) :
  String.length v < 2 -> assign s k v = store s k v.
Proof.
  intros Hl. unfold assign.
  replace (2 <=? String.length v)%nat with false; [reflexivity|].
  symmetry. apply Nat.leb_gt. exact Hl.
Qed.

Lemma assign_quoted (s : pstate) (k mid : string) (q : ascii) :
  is_quote q = true ->
  assign s k (String q (mid ++ string_of_byte q)) = store s k mid.
Proof.
  intros Hq. unfold assign.
  pose proof (last_byte_app (String q mid) q) as Hlast.
  rewrite append_cons in Hlast. rewrite Hlast.
  replace (2 <=? _)%nat with true.
  2:{ symmetry. apply Nat.leb_le. cbn [String.length].
      rewrite length_app_string. cbn. lia. }
  cbn [byte_at String.get]. rewrite Hq, Ascii.eqb_refl. cbn [andb].
  now rewrite TrimPrefix_byte, TrimSuffix_app.
Qed.

Lemma assign_open (s : pstate) (k rest : string) (q : ascii) :
  is_quote q = true ->
  2 <= String.length (String q rest) ->
  byte_at (String q rest) (String.length (String q rest) - 1) <> Some q ->
  assign s k (String q rest)
  = {| out := out s; key := k; value := rest ++ nl;
       inMultiline := true; quote := q |}.
Proof.
  intros Hq Hl Hne. unfold assign.
  replace (2 <=? _)%nat with true by (symmetry; now apply Nat.leb_le).
  destruct (get_in_range (String q rest) (String.length (String q rest) - 1))
    as [e He]; [cbn [String.length]; lia|].
  unfold byte_at in *. rewrite He in *. cbn [String.get].
  assert (Ascii.eqb e q = false) as ->
      by (apply Ascii.eqb_neq; congruence).
  rewrite Hq. cbn [andb negb]. now rewrite TrimPrefix_byte.
Qed.

(** Lines that do not end with the quote extend the pending value and
    leave everything else alone. *)
Lemma run_collect (s : pstate) (mids : list string) :
  inMultiline s = true ->
  Forall (fun l => HasSuffix l (string_of_byte (quote s)) = false) mids ->
  run s mids
  = {| out := out s; key := key s; value := value s ++ joined mids;
       inMultiline := true; quote := quote s |}.
Proof.
  revert s. induction mids as [|l mids IH]; intros s Hm Hall.
  - cbn. rewrite append_empty_r. destruct s; cbn in *; now subst.
  - inversion Hall as [|? ? Hl Hrest]; subst.
    rewrite run_cons.
    assert (step s l = {| out := out s; key := key s; value := value s ++ l ++ nl;
                          inMultiline := true; quote := quote s |}) as Hs
        by (unfold step; now rewrite Hm, Hl).
    rewrite Hs, IH; cbn; [|reflexivity|exact Hrest].
    now rewrite !append_assoc.
Qed.

End ParserFacts.

Module ParserClaims.
Import Parser ParserFacts.

Lemma slice_interior (q : ascii) (mid : string) :
  let v := String q (mid ++ string_of_byte q) in
  slice v 1 (String.length v - 1) = mid.
Proof.
  cbn zeta. unfold slice. cbn [String.length]. rewrite length_app_string.
  cbn [String.length string_of_byte].
  replace (S (String.length mid + 1) - 1 - 1) with (String.length mid) by lia.
  cbn [substring]. apply substring_front.
Qed.

(** C4. In the normal state, a line whose candidate value has at least two
    bytes, the first and the last being the same quote byte, stores under
    its key the value without its first and its last byte, [v[1:len(v)-1]];
    the bytes in between are kept as they are, and the parser stays in the
    normal state. *)
Theorem quoted_value_stripped (s : pstate) (line k v : string) (q : ascii) :
  inMultiline s = false ->
  candidate line = Some (k, v) ->
  2 <= String.length v ->
  is_quote q = true ->
  byte_at v 0 = Some q ->
  byte_at v (String.length v - 1) = Some q ->
  let interior := slice v 1 (String.length v - 1) in
  v = String q (interior ++ string_of_byte q) /\
  out (step s line) = <[k := interior]> (out s) /\
  inMultiline (step s line) = false.
Proof.
  intros Hm Hc Hl Hq H0 Hlast interior.
  destruct (last_byte_shape _ _ Hlast) as [body Hb].
  destruct v as [|c v']; [discriminate|].
  cbn in H0. injection H0 as ->.
  destruct body as [|c' mid].
  { cbn in Hb. injection Hb as Hv. subst v'. cbn in Hl. lia. }
  rewrite append_cons in Hb. injection Hb as -> ->.
  subst interior. rewrite slice_interior.
  rewrite (step_normal _ _ _ _ Hm Hc), assign_quoted by exact Hq.
  cbn. auto.
Qed.

(** [KEY="a b c"] parses to [a b c]. *)
Lemma quoted_value_stripped_witness :
  out (step pinit ex_quoted_line) = {[ "KEY" := "a b c" ]}.
Proof.
  destruct (quoted_value_stripped pinit ex_quoted_line "KEY"
              (String dquote ("a b c" ++ string_of_byte dquote)) dquote)
    as (_ & Hout & _);
    [reflexivity | reflexivity | vm_compute; lia | reflexivity ..
    | rewrite Hout; reflexivity].
Defined.

(** C8. In the normal state, a line whose candidate value has fewer than
    two bytes (empty, or one byte, a quote included) stores that value
    unchanged under its key, and the parser stays in the normal state. *)
Theorem short_value_stored_as_is (s : pstate) (line k v : string) :
  inMultiline s = false ->
  candidate line = Some (k, v) ->
  String.length v < 2 ->
  out (step s line) = <[k := v]> (out s) /\ inMultiline (step s line) = false.
Proof.
  intros Hm Hc Hl.
  rewrite (step_normal _ _ _ _ Hm Hc), assign_short by exact Hl.
  cbn. auto.
Qed.

Lemma short_value_stored_as_is_witness :
  out (step pinit ex_lone_quote_line) = {[ "Q" := string_of_byte squote ]}
  /\ inMultiline (step pinit ex_lone_quote_line) = false.
Proof.
  destruct (short_value_stored_as_is pinit ex_lone_quote_line "Q"
              (string_of_byte squote)) as [Hout Hm];
    [reflexivity | reflexivity | vm_compute; lia
    | split; [rewrite Hout; reflexivity | exact Hm]].
Defined.

(** C3. In the normal state, a line whose candidate value has at least two
    bytes, starts with a quote byte [q] and does not end with [q], opens a
    multi-line value: nothing is stored, the key and [q] are remembered and
    the pending value is the candidate without its leading quote, followed
    by a line terminator.  Every following raw line that does not end with
    [q] is appended whole, followed by a line terminator.  The first raw
    line that ends with [q] is appended without that last byte, the pending
    value is stored under the remembered key, and the parser is back in the
    normal state. *)
Theorem multiline_value_collected
    (s : pstate) (line k rest : string) (q : ascii)
    (mids : list string) (body : string) :
  inMultiline s = false ->
  candidate line = Some (k, String q rest) ->
  2 <= String.length (String q rest) ->
  is_quote q = true ->
  byte_at (String q rest) (String.length (String q rest) - 1) <> Some q ->
  Forall (fun l => HasSuffix l (string_of_byte q) = false) mids ->
  let s1 := step s line in
  let s2 := run s1 mids in
  let s3 := step s2 (body ++ string_of_byte q) in
  s1 = {| out := out s; key := k; value := rest ++ nl;
          inMultiline := true; quote := q |} /\
  s2 = {| out := out s; key := k; value := (rest ++ nl) ++ joined mids;
          inMultiline := true; quote := q |} /\
  out s3 = <[k := (rest ++ nl) ++ joined mids ++ body]> (out s) /\
  inMultiline s3 = false.
Proof.
  intros Hm Hc Hl Hq Hne Hmids s1 s2 s3.
  assert (s1 = {| out := out s; key := k; value := rest ++ nl;
                  inMultiline := true; quote := q |}) as H1.
  { subst s1. rewrite (step_normal _ _ _ _ Hm Hc). now apply assign_open. }
  assert (s2 = {| out := out s; key := k; value := (rest ++ nl) ++ joined mids;
                  inMultiline := true; quote := q |}) as H2.
  { subst s2. rewrite H1. now rewrite run_collect. }
  repeat split; [exact H1 | exact H2 | |]; subst s3; rewrite H2; unfold step;
    cbn [inMultiline negb quote key value out];
    rewrite HasSuffix_app; [|reflexivity].
  now rewrite TrimSuffix_app, append_assoc.
Qed.

Lemma multiline_value_collected_witness :
  out (run pinit [ex_open_line; "line two"; ex_close_line])
  = {[ "MULTI" := "line one" ++ nl ++ "line two" ++ nl ++ "line three" ]}.
Proof.
  destruct (multiline_value_collected pinit ex_open_line "MULTI" "line one"
              dquote ["line two"] "line three")
    as (_ & _ & Hout & _);
    [reflexivity | reflexivity | vm_compute; lia | reflexivity
    | vm_compute; discriminate
    | repeat constructor
    | exact Hout ].
Defined.

(** Once a multi-line value is open, the lines read so far decompose into
    the lines before the opening line, the opening line, and lines that
    left the mapping as it was. *)
Lemma open_at_end (s0 : pstate) (lines : list string) :
  inMultiline s0 = false ->
  inMultiline (run s0 lines) = true ->
  exists pre opening rest v,
    lines = (pre ++ opening :: rest)%list /\
    inMultiline (run s0 pre) = false /\
    candidate opening = Some (key (run s0 lines), v) /\
    out (run s0 lines) = out (run s0 pre).
Proof.
  intros H0. induction lines as [|l lines IH] using rev_ind.
  - cbn. congruence.
  - rewrite run_snoc. destruct (inMultiline (run s0 lines)) eqn:Hm.
    + destruct (IH eq_refl) as (pre & opening & rest & v & -> & Hpre & Hc & Hout).
      unfold step at 1 2 3. rewrite Hm. cbn [negb].
      destruct (HasSuffix l _); cbn [inMultiline key out]; [discriminate|].
      intros _. exists pre, opening, (rest ++ [l])%list, v.
      rewrite <- app_assoc. auto.
    + unfold step at 1 2 3. rewrite Hm. cbn [negb].
      destruct (candidate l) as [[k v]|] eqn:Hc; [|congruence].
      intros Hopen. exists lines, l, [], v.
      assert (key (assign (run s0 lines) k v) = k
              /\ out (assign (run s0 lines) k v) = out (run s0 lines)) as [-> ->].
      { revert Hopen. unfold assign, store.
        repeat (match goal with |- context [match ?x with _ => _ end] =>
                  destruct x end; cbn [inMultiline key out]); rewrite ?Hm;
          (discriminate || auto). }
      auto.
Qed.

(** C5. When the input ends while a multi-line value is open, the mapping
    returned is the one built by the lines before the line that opened the
    value (so the pending key is bound only if one of those lines bound
    it), and the error returned is the scanner's: the open quote adds none. *)
Theorem unterminated_multiline_dropped
    (o : os) (path : string) (lines : list string) (scan_err : option error) :
  files o path = Scanned lines scan_err ->
  inMultiline (run pinit lines) = true ->
  exists pre opening rest v,
    lines = (pre ++ opening :: rest)%list /\
    inMultiline (run pinit pre) = false /\
    candidate opening = Some (key (run pinit lines), v) /\
    loadEnvFile o path = ({| m := out (run pinit pre) |}, scan_err).
Proof.
  intros Hf Hm.
  destruct (open_at_end pinit lines eq_refl Hm)
    as (pre & opening & rest & v & Hl & Hpre & Hc & Hout).
  exists pre, opening, rest, v. repeat split; try assumption.
  unfold loadEnvFile. now rewrite Hf, Hout.
Qed.

Lemma unterminated_multiline_dropped_witness :
  exists pre opening rest v,
    ["A=1"; "K='abc"; "more"] = (pre ++ opening :: rest)%list /\
    inMultiline (run pinit pre) = false /\
    candidate opening = Some (key (run pinit ["A=1"; "K='abc"; "more"]), v) /\
    loadEnvFile ex_os_unterminated ".env" = ({| m := out (run pinit pre) |}, None).
Proof.
  apply (unterminated_multiline_dropped ex_os_unterminated ".env"
           ["A=1"; "K='abc"; "more"] None); reflexivity.
Defined.

End ParserClaims.

(** * The snapshot store and the lookup policy *)

Module LookupClaims.

Lemma nonempty_eqb (c : ascii) (r : string) : String.eqb (String c r) "" = false.
Proof. reflexivity. Qed.

(** [get] on a world that holds a snapshot is the policy of the
    specification, the caller's default apart. *)
Lemma get_policy (o : os) (w : world) (c : config) (key : string) :
  cfg w = Some c ->
  get o key w
  = lookup_policy (m c) (optFallbackToProcessEnv w) (environ o) key None.
Proof.
  intros Hc. unfold get, lookup_policy, map_index, os_Getenv. rewrite Hc.
  destruct (m c !! key) as [[|a r]|]; cbn [default negb String.eqb];
    destruct (optFallbackToProcessEnv w); try reflexivity;
    destruct (environ o !! key) as [[|a' r']|]; reflexivity.
Qed.

Lemma policy_default (snap env : gmap string string) (b : bool)
    (key : string) (def : list string) :
  lookup_policy snap b env key (head def)
  = match def with
    | d :: _ => if String.eqb (lookup_policy snap b env key None) "" then d
                else lookup_policy snap b env key None
    | [] => lookup_policy snap b env key None
    end.
Proof.
  unfold lookup_policy.
  destruct (snap !! key) as [[|a r]|], b, (env !! key) as [[|a' r']|], def;
    reflexivity.
Qed.

Lemma Getenv_policy (o : os) (w : world) (c : config)
    (key : string) (def : list string) :
  cfg (ensureStarted o "" w) = Some c ->
  Getenv o key def w
  = (lookup_policy (m c) (optFallbackToProcessEnv (ensureStarted o "" w))
       (environ o) key (head def),
     ensureStarted o "" w).
Proof.
  intros Hc. unfold Getenv. rewrite (get_policy _ _ _ _ Hc), policy_default.
  destruct def; [reflexivity|]. now destruct (String.eqb _ "").
Qed.

Lemma ensureStarted_flag (o : os) (path : string) (w : world) :
  optFallbackToProcessEnv (ensureStarted o path w) = optFallbackToProcessEnv w.
Proof.
  unfold ensureStarted, initial_load.
  destruct (initOnce w); [reflexivity|].
  now destruct (Parser.loadEnvFile o _) as [c' [e|]].
Qed.

(** C2. [Getenv] resolves in three tiers: with [c] the snapshot held once
    the (lazy) start is done, the result is the policy of the
    specification on [c], the fallback flag, the process environment and
    the first of the caller's defaults, if any.  A key bound to the empty
    string in the snapshot gives what an unbound key gives. *)
Theorem getenv_three_tiers (o : os) (w : world) (c : config)
    (key : string) (def : list string) :
  cfg (ensureStarted o "" w) = Some c ->
  Getenv o key def w
  = (lookup_policy (m c) (optFallbackToProcessEnv w) (environ o) key (head def),
     ensureStarted o "" w)
  /\ forall (snap : gmap string string) (o' : os),
       get o' key (set_cfg {| m := <[key := ""]> snap |} w)
       = get o' key (set_cfg {| m := delete key snap |} w).
Proof.
  intros Hc. split.
  - rewrite (Getenv_policy _ _ _ _ _ Hc). now rewrite ensureStarted_flag.
  - intros snap o'. unfold get, map_index. cbn [cfg set_cfg m].
    now rewrite lookup_insert_eq, lookup_delete_eq.
Qed.

Lemma getenv_three_tiers_witness :
  Getenv ex_os_port "PORT" ["80"] world0
  = ("8080", ensureStarted ex_os_port "" world0)
  /\ fst (Getenv ex_os "PORT" ["80"] world0) = "80".
Proof.
  split.
  - exact (proj1 (getenv_three_tiers ex_os_port world0
                    {| m := {[ "PORT" := "8080" ]} |} "PORT" ["80"] eq_refl)).
  - reflexivity.
Defined.

(** C1 (the code departs from it). With no configuration call made, the
    flag holds the zero value of [atomic.Bool], [false]: a key the file
    does not define is not looked up in the process environment, although
    the environment defines it. *)
Theorem fallback_off_without_configuration :
  optFallbackToProcessEnv world0 = false
  /\ os_Getenv ex_os "GREETING_TEXT" = "Hello"
  /\ Getenv ex_os "GREETING_TEXT" [] world0
     = ("", ensureStarted ex_os "" world0)
  /\ fst (Getenv ex_os "GREETING_TEXT" [] (WithFallbackToProcessEnv true world0))
     = "Hello".
Proof. repeat split. Qed.




End LookupClaims.

(** * Reloads and the lifecycle guards *)

Module LifecycleClaims.

Lemma execs_snoc (w : world) (tr : list (os * op)) (e : os * op) :
  execs w (tr ++ [e])%list = exec (execs w tr) e.
Proof. unfold execs. now rewrite fold_left_app. Qed.

(** A property of worlds that every step keeps holds along every run. *)
Lemma execs_preserves (P : world -> Prop) :
  (forall w e, P w -> P (exec w e)) ->
  forall tr w, P w -> P (execs w tr).
Proof.
  intros Hstep tr. induction tr as [|e tr IH]; intros w Hw; [exact Hw|].
  cbn. apply IH, Hstep, Hw.
Qed.

Ltac unfold_api :=
  unfold exec, Getenv, Init, ensureStarted, initial_load, Stop,
    WithFallbackToProcessEnv, WithDefaultPath, WithLogger, reload, log,
    set_cfg in *.

Ltac split_cases :=
  repeat match goal with
    | |- context [match ?x with _ => _ end] => destruct x eqn:?
    end;
  cbn in *.

(** Reloads whose parse fails leave the reference alone. *)
Lemma reload_failed_cfg (o : os) (filePath : string) (w : world) :
  snd (Parser.loadEnvFile o filePath) <> None ->
  cfg (reload o filePath w) = cfg w
  /\ optFallbackToProcessEnv (reload o filePath w) = optFallbackToProcessEnv w.
Proof.
  unfold reload, log.
  destruct (Parser.loadEnvFile o filePath) as [c [e|]]; cbn; [auto|congruence].
Qed.

Lemma get_depends (o : os) (key : string) (w w' : world) :
  cfg w' = cfg w ->
  optFallbackToProcessEnv w' = optFallbackToProcessEnv w ->
  get o key w' = get o key w.
Proof. intros Hc Hf. unfold get. now rewrite Hc, Hf. Qed.

(** C6. Reloads whose parse returns an error, however many in a row,
    leave the reference as it was: every [get] returns what it returned
    before them.  The next reload whose parse succeeds installs its
    mapping. *)
Theorem failed_reload_keeps_snapshot
    (filePath : string) (failing : list os) (w : world) :
  Forall (fun o => snd (Parser.loadEnvFile o filePath) <> None) failing ->
  let w' := fold_left (fun w o => reload o filePath w) failing w in
  cfg w' = cfg w
  /\ (forall o key, get o key w' = get o key w)
  /\ (forall o c, Parser.loadEnvFile o filePath = (c, None) ->
                  cfg (reload o filePath w') = Some c).
Proof.
  intros Hall w'.
  assert (cfg w' = cfg w
          /\ optFallbackToProcessEnv w' = optFallbackToProcessEnv w) as [Hc Hf].
  { subst w'. revert w. induction Hall as [|o failing Ho _ IH]; intros w.
    - now split.
    - cbn. destruct (IH (reload o filePath w)) as [-> ->].
      now apply reload_failed_cfg. }
  repeat split; [exact Hc | intros; now apply get_depends |].
  intros o c Hok. unfold reload. now rewrite Hok.
Qed.

Lemma failed_reload_keeps_snapshot_witness :
  cfg (reload ex_os_unreadable "/app/secrets/.env" (Init ex_os_port "" world0))
  = Some {| m := {[ "PORT" := "8080" ]} |}
  /\ get ex_os_unreadable "PORT"
       (reload ex_os_unreadable "/app/secrets/.env" (Init ex_os_port "" world0))
     = "8080".
Proof.
  destruct (failed_reload_keeps_snapshot "/app/secrets/.env"
              [ex_os_unreadable] (Init ex_os_port "" world0)) as (Hc & Hg & _).
  - repeat constructor. vm_compute. discriminate.
  - cbn [fold_left] in Hc, Hg. split; [rewrite Hc | rewrite Hg]; reflexivity.
Defined.

(** What [ensureStarted] stores when it runs its body. *)
Lemma ensureStarted_installs (o : os) (path : string) (w : world) :
  initOnce w = false ->
  initOnce (ensureStarted o path w) = true
  /\ cfg (ensureStarted o path w)
     = Some (match Parser.loadEnvFile o (resolve_path o path w) with
             | (c, None) => c
             | (_, Some _) => {| m := ∅ |}
             end).
Proof.
  intros Hi. unfold ensureStarted, initial_load. rewrite Hi.
  now destruct (Parser.loadEnvFile o _) as [c [e|]].
Qed.

Lemma exec_keeps_snapshot (w : world) (e : os * op) :
  (initOnce w = true -> is_Some (cfg w)) ->
  (initOnce (exec w e) = true -> is_Some (cfg (exec w e))).
Proof.
  intros Hw. destruct e as [o a].
  destruct a; unfold_api; split_cases; eauto.
Qed.

(** C9. Along every run from program start: once the one-time start has
    run, the reference holds a mapping, so the read in [get] succeeds; and
    if the start has not run yet, running it (by [Init] or by the first
    [Getenv]) stores the parsed mapping, or the empty mapping when the
    load fails; no later step empties the reference. *)
Theorem snapshot_always_present (tr : list (os * op)) :
  let w := execs world0 tr in
  (initOnce w = true -> exists c, cfg w = Some c)
  /\ (forall o path,
        initOnce w = false ->
        initOnce (ensureStarted o path w) = true
        /\ cfg (ensureStarted o path w)
           = Some (match Parser.loadEnvFile o (resolve_path o path w) with
                   | (c, None) => c
                   | (_, Some _) => {| m := ∅ |}
                   end))
  /\ (forall e, is_Some (cfg w) -> is_Some (cfg (exec w e))).
Proof.
  intros w. repeat split.
  - intros Hi.
    assert (initOnce w = true -> is_Some (cfg w)) as H.
    { subst w. apply (execs_preserves
                        (fun w => initOnce w = true -> is_Some (cfg w)));
        [apply exec_keeps_snapshot | discriminate]. }
    destruct (H Hi) as [c Hc]. now exists c.
  - now apply ensureStarted_installs.
  - now apply ensureStarted_installs.
  - intros [o a] Hs. destruct a; unfold_api; split_cases; eauto.
Qed.

Lemma snapshot_always_present_witness :
  exists c,
    cfg (execs world0 [(ex_os_unreadable, OpGetenv "PORT" ["8080"]);
                       (ex_os_unreadable, OpTimerFires);
                       (ex_os, OpStop)]) = Some c.
Proof.
  exact (proj1 (snapshot_always_present
                  [(ex_os_unreadable, OpGetenv "PORT" ["8080"]);
                   (ex_os_unreadable, OpTimerFires);
                   (ex_os, OpStop)]) eq_refl).
Defined.

Lemma exec_not_started_yet (w : world) (e : os * op) :
  not_started_yet w -> not_started_yet (exec w e).
Proof.
  unfold not_started_yet. intros Hw. destruct e as [o a].
  destruct a; unfold_api; split_cases; intros; try discriminate;
    try (destruct Hw as (? & ? & ?); [assumption|]); auto; try congruence.
Qed.

Lemma exec_stop_spent (w : world) (e : os * op) :
  stop_spent w -> stop_spent (exec w e).
Proof.
  unfold stop_spent. intros (Hs & Hd & Hi). destruct e as [o a].
  destruct a; unfold_api; split_cases; repeat split; intros;
    try congruence; eauto; try (now apply Hi).
  match goal with H : watching _ = None |- _ => rewrite H end. now apply Hi.
Qed.

(** C10. When [Stop] runs before the start (nothing but configuration
    calls and earlier [Stop]s before it), it spends the stop guard while
    [cancelFunc] is still [nil].  Whatever follows, [Stop] calls included,
    the context handed to the watcher is never cancelled: once the start
    has run, the watcher has been launched and a cancel function is set,
    but [Stop] does nothing. *)
Theorem stop_before_start_never_cancels (pre post : list (os * op)) :
  let w := execs world0 pre in
  initOnce w = false ->
  let w1 := Stop w in
  let w2 := execs w1 post in
  stopOnce w1 = true /\ cancelFunc w1 = false
  /\ ctxDone w2 = false
  /\ (initOnce w2 = true -> cancelFunc w2 = true /\ is_Some (watching w2))
  /\ Stop w2 = w2.
Proof.
  intros w Hi w1 w2.
  assert (not_started_yet w) as Hk.
  { subst w. apply execs_preserves; [apply exec_not_started_yet|].
    intros _. now repeat split. }
  destruct (Hk Hi) as (Hcf & Hcd & _).
  assert (stopOnce w1 = true /\ cancelFunc w1 = false /\ ctxDone w1 = false
          /\ initOnce w1 = false) as (H1 & H2 & H3 & H4).
  { subst w1. unfold Stop. destruct (stopOnce w) eqn:Hs; cbn; rewrite ?Hcf; auto. }
  assert (stop_spent w2) as (Hs2 & Hd2 & Hi2).
  { subst w2. apply execs_preserves; [apply exec_stop_spent|].
    repeat split; try assumption; congruence. }
  repeat split; try assumption; try (now apply Hi2).
  unfold Stop. now rewrite Hs2.
Qed.

Lemma stop_before_start_never_cancels_witness :
  ctxDone (execs (Stop world0) [(ex_os, OpInit ""); (ex_os, OpStop)]) = false
  /\ watching (execs (Stop world0) [(ex_os, OpInit ""); (ex_os, OpStop)])
     = Some "/app/secrets/.env"
  /\ ctxDone (execs world0 [(ex_os, OpInit ""); (ex_os, OpStop)]) = true.
Proof.
  destruct (stop_before_start_never_cancels [] [(ex_os, OpInit ""); (ex_os, OpStop)]
              eq_refl) as (_ & _ & Hd & _).
  split; [exact Hd | split; reflexivity].
Defined.

End LifecycleClaims.

(** * White space around keys and values *)

Module TrimFacts.

Lemma rev_app_length (s t : string) :
  String.length (String.rev_app s t) = String.length s + String.length t.
Proof.
  revert t. induction s as [|a s IH]; intros t; cbn; [reflexivity|].
  rewrite IH. cbn. lia.
Qed.

Lemma rev_length (s : string) : String.length (String.rev s) = String.length s.
Proof. unfold String.rev. rewrite rev_app_length. cbn. lia. Qed.

Lemma rev_app_rev_app (s t u : string) :
  String.rev_app (String.rev_app s t) u = String.rev_app t (s ++ u).
Proof.
  revert t u. induction s as [|a s IH]; intros t u; [reflexivity|].
  cbn [String.rev_app]. now rewrite IH.
Qed.

Lemma rev_involutive (s : string) : String.rev (String.rev s) = s.
Proof.
  unfold String.rev. rewrite rev_app_rev_app. cbn [String.rev_app].
  apply ParserFacts.append_empty_r.
Qed.

Lemma rev_app_append (s t u : string) :
  String.rev_app (s ++ t) u = String.rev_app t (String.rev_app s u).
Proof.
  revert u. induction s as [|a s IH]; intros u; [reflexivity|].
  rewrite ParserFacts.append_cons. cbn [String.rev_app]. now rewrite IH.
Qed.

Lemma rev_app_spec (s t : string) : String.rev_app s t = String.rev s ++ t.
Proof.
  unfold String.rev. revert t. induction s as [|a s IH]; intros t; [reflexivity|].
  cbn [String.rev_app]. rewrite IH, (IH (String a "")).
  now rewrite ParserFacts.append_assoc.
Qed.

Lemma rev_append (s t : string) :
  String.rev (s ++ t) = String.rev t ++ String.rev s.
Proof.
  unfold String.rev at 1. rewrite rev_app_append, rev_app_spec. reflexivity.
Qed.

Lemma rev_cons (a : ascii) (s : string) :
  String.rev (String a s) = String.rev s ++ string_of_byte a.
Proof. unfold String.rev at 1. cbn [String.rev_app]. apply rev_app_spec. Qed.


Lemma TL_eq1 (a : ascii) :
  TrimLeftSpace (String a "") = if space1 a then "" else String a "".
Proof. reflexivity. Qed.

Lemma TL_eq2 (a b : ascii) :
  TrimLeftSpace (String a (String b ""))
  = if space1 a then TrimLeftSpace (String b "")
    else if space2 a b then "" else String a (String b "").
Proof. reflexivity. Qed.

Lemma TL_eq3 (a b c : ascii) (s : string) :
  TrimLeftSpace (String a (String b (String c s)))
  = if space1 a then TrimLeftSpace (String b (String c s))
    else if space2 a b then TrimLeftSpace (String c s)
    else if space3 a b c then TrimLeftSpace s
    else String a (String b (String c s)).
Proof. reflexivity. Qed.

Lemma TL_length (s : string) :
  String.length (TrimLeftSpace s) <= String.length s.
Proof.
  remember (String.length s) as n eqn:Hn. revert s Hn.
  induction n as [n IH] using lt_wf_ind. intros s ->.
  assert (forall t, String.length t < String.length s ->
                    String.length (TrimLeftSpace t) <= String.length t) as IH'
      by (intros t Ht; exact (IH _ Ht t eq_refl)).
  clear IH. destruct s as [|a [|b [|c s]]]; [cbn; lia | | |].
  - rewrite TL_eq1. destruct (space1 a); cbn; lia.
  - rewrite TL_eq2. destruct (space1 a).
    + pose proof (IH' (String b "") ltac:(cbn; lia)). cbn [String.length] in *. lia.
    + destruct (space2 a b); cbn; lia.
  - rewrite TL_eq3. destruct (space1 a).
    + pose proof (IH' (String b (String c s)) ltac:(cbn; lia)).
      cbn [String.length] in *. lia.
    + destruct (space2 a b).
      * pose proof (IH' (String c s) ltac:(cbn; lia)).
        cbn [String.length] in *. lia.
      * destruct (space3 a b c); [|lia].
        pose proof (IH' s ltac:(cbn; lia)).
        cbn [String.length] in *. lia.
Qed.

Lemma TL_keep (s : string) : lead_space s = false -> TrimLeftSpace s = s.
Proof.
  destruct s as [|a [|b [|c s]]]; [reflexivity | | |].
  - rewrite TL_eq1. cbn. now destruct (space1 a).
  - rewrite TL_eq2. cbn. destruct (space1 a); [discriminate|].
    now destruct (space2 a b).
  - rewrite TL_eq3. cbn. destruct (space1 a); [discriminate|].
    destruct (space2 a b); [discriminate|]. now destruct (space3 a b c).
Qed.

Lemma TL_shrinks (s : string) :
  lead_space s = true -> String.length (TrimLeftSpace s) < String.length s.
Proof.
  destruct s as [|a [|b [|c s]]]; [discriminate | | |].
  - rewrite TL_eq1. cbn. destruct (space1 a); [cbn; lia | discriminate].
  - rewrite TL_eq2. cbn [lead_space]. destruct (space1 a).
    + intros _. pose proof (TL_length (String b "")). cbn [String.length] in *. lia.
    + destruct (space2 a b); [cbn; lia | discriminate].
  - rewrite TL_eq3. cbn [lead_space]. destruct (space1 a).
    + intros _. pose proof (TL_length (String b (String c s))).
      cbn [String.length] in *. lia.
    + destruct (space2 a b).
      * intros _. pose proof (TL_length (String c s)).
        cbn [String.length] in *. lia.
      * destruct (space3 a b c); [|discriminate].
        intros _. pose proof (TL_length s). cbn [String.length] in *. lia.
Qed.

Lemma TL_fixed (s : string) : TrimLeftSpace s = s -> lead_space s = false.
Proof.
  intros Heq. destruct (lead_space s) eqn:Hl; [|reflexivity].
  apply TL_shrinks in Hl. rewrite Heq in Hl. lia.
Qed.

Lemma TR_eq1 (a : ascii) :
  TrimLeftSpace_rev (String a "") = if space1 a then "" else String a "".
Proof. reflexivity. Qed.

Lemma TR_eq2 (a b : ascii) :
  TrimLeftSpace_rev (String a (String b ""))
  = if space1 a then TrimLeftSpace_rev (String b "")
    else if space2 b a then "" else String a (String b "").
Proof. reflexivity. Qed.

Lemma TR_eq3 (a b c : ascii) (s : string) :
  TrimLeftSpace_rev (String a (String b (String c s)))
  = if space1 a then TrimLeftSpace_rev (String b (String c s))
    else if space2 b a then TrimLeftSpace_rev (String c s)
    else if space3 c b a then TrimLeftSpace_rev s
    else String a (String b (String c s)).
Proof. reflexivity. Qed.

Lemma TR_length (s : string) :
  String.length (TrimLeftSpace_rev s) <= String.length s.
Proof.
  remember (String.length s) as n eqn:Hn. revert s Hn.
  induction n as [n IH] using lt_wf_ind. intros s ->.
  assert (forall t, String.length t < String.length s ->
                    String.length (TrimLeftSpace_rev t) <= String.length t) as IH'
      by (intros t Ht; exact (IH _ Ht t eq_refl)).
  clear IH. destruct s as [|a [|b [|c s]]]; [cbn; lia | | |].
  - rewrite TR_eq1. destruct (space1 a); cbn; lia.
  - rewrite TR_eq2. destruct (space1 a).
    + pose proof (IH' (String b "") ltac:(cbn; lia)). cbn [String.length] in *. lia.
    + destruct (space2 b a); cbn; lia.
  - rewrite TR_eq3. destruct (space1 a).
    + pose proof (IH' (String b (String c s)) ltac:(cbn; lia)).
      cbn [String.length] in *. lia.
    + destruct (space2 b a).
      * pose proof (IH' (String c s) ltac:(cbn; lia)).
        cbn [String.length] in *. lia.
      * destruct (space3 c b a); [|lia].
        pose proof (IH' s ltac:(cbn; lia)).
        cbn [String.length] in *. lia.
Qed.

Lemma TR_keep (s : string) : lead_space_rev s = false -> TrimLeftSpace_rev s = s.
Proof.
  destruct s as [|a [|b [|c s]]]; [reflexivity | | |].
  - rewrite TR_eq1. cbn. now destruct (space1 a).
  - rewrite TR_eq2. cbn. destruct (space1 a); [discriminate|].
    now destruct (space2 b a).
  - rewrite TR_eq3. cbn. destruct (space1 a); [discriminate|].
    destruct (space2 b a); [discriminate|]. now destruct (space3 c b a).
Qed.

Lemma TR_shrinks (s : string) :
  lead_space_rev s = true -> String.length (TrimLeftSpace_rev s) < String.length s.
Proof.
  destruct s as [|a [|b [|c s]]]; [discriminate | | |].
  - rewrite TR_eq1. cbn. destruct (space1 a); [cbn; lia | discriminate].
  - rewrite TR_eq2. cbn [lead_space_rev]. destruct (space1 a).
    + intros _. pose proof (TR_length (String b "")). cbn [String.length] in *. lia.
    + destruct (space2 b a); [cbn; lia | discriminate].
  - rewrite TR_eq3. cbn [lead_space_rev]. destruct (space1 a).
    + intros _. pose proof (TR_length (String b (String c s))).
      cbn [String.length] in *. lia.
    + destruct (space2 b a).
      * intros _. pose proof (TR_length (String c s)).
        cbn [String.length] in *. lia.
      * destruct (space3 c b a); [|discriminate].
        intros _. pose proof (TR_length s). cbn [String.length] in *. lia.
Qed.

Lemma TR_fixed (s : string) : TrimLeftSpace_rev s = s -> lead_space_rev s = false.
Proof.
  intros Heq. destruct (lead_space_rev s) eqn:Hl; [|reflexivity].
  apply TR_shrinks in Hl. rewrite Heq in Hl. lia.
Qed.

(** A string is its own [TrimSpace] exactly when no white-space rune
    starts it and none ends it. *)
Lemma TrimSpace_keep (s : string) :
  lead_space s = false -> lead_space_rev (String.rev s) = false ->
  TrimSpace s = s.
Proof.
  intros Hl Hr. unfold TrimSpace, TrimRightSpace.
  now rewrite (TL_keep _ Hl), (TR_keep _ Hr), rev_involutive.
Qed.

Lemma TrimSpace_fixed (s : string) :
  TrimSpace s = s ->
  lead_space s = false /\ lead_space_rev (String.rev s) = false.
Proof.
  unfold TrimSpace, TrimRightSpace. intros Heq.
  assert (String.length (TrimLeftSpace s) = String.length s) as Hlen.
  { pose proof (TL_length s).
    pose proof (TR_length (String.rev (TrimLeftSpace s))) as H1.
    rewrite rev_length in H1.
    assert (String.length (String.rev (TrimLeftSpace_rev
              (String.rev (TrimLeftSpace s)))) = String.length s) as H2
        by now rewrite Heq.
    rewrite rev_length in H2. lia. }
  assert (lead_space s = false) as Hl.
  { destruct (lead_space s) eqn:E; [|reflexivity].
    apply TL_shrinks in E. lia. }
  split; [exact Hl|].
  rewrite (TL_keep _ Hl) in Heq.
  apply TR_fixed. rewrite <- Heq at 2. now rewrite rev_involutive.
Qed.

End TrimFacts.

(** * Lines that hold one assignment *)

Module EntryFacts.
Import Parser ParserFacts TrimFacts.

Lemma plain_byte_inv (x : ascii) :
  plain_byte x = true -> nat_of_ascii x < 128 /\ space1 x = false.
Proof.
  unfold plain_byte. intros [H1 H2]%andb_true_iff.
  apply Nat.ltb_lt in H1. now apply negb_true_iff in H2.
Qed.

Ltac below_128 v :=
  repeat match goal with
    | |- context [(v =? ?c)%nat] =>
        replace (v =? c)%nat with false by (symmetry; apply Nat.eqb_neq; lia)
    | |- context [(?c <=? v)%nat] =>
        replace (c <=? v)%nat with false by (symmetry; apply Nat.leb_gt; lia)
    end.

Ltac decide_tests :=
  repeat match goal with
    | |- context [(?a =? ?b)%nat] => destruct (a =? b)%nat
    | |- context [(?a <=? ?b)%nat] => destruct (a <=? b)%nat
    end; reflexivity.

Lemma space2_plain_r (a x : ascii) : plain_byte x = true -> space2 a x = false.
Proof.
  intros [Hx _]%plain_byte_inv. unfold space2. cbn zeta.
  below_128 (nat_of_ascii x). decide_tests.
Qed.

Lemma space2_plain_l (x b : ascii) : plain_byte x = true -> space2 x b = false.
Proof.
  intros [Hx _]%plain_byte_inv. unfold space2. cbn zeta.
  below_128 (nat_of_ascii x). decide_tests.
Qed.

Lemma space3_plain_1 (x b c : ascii) : plain_byte x = true -> space3 x b c = false.
Proof.
  intros [Hx _]%plain_byte_inv. unfold space3. cbn zeta.
  below_128 (nat_of_ascii x). decide_tests.
Qed.

Lemma space3_plain_2 (a x c : ascii) : plain_byte x = true -> space3 a x c = false.
Proof.
  intros [Hx _]%plain_byte_inv. unfold space3. cbn zeta.
  below_128 (nat_of_ascii x). decide_tests.
Qed.

Lemma space3_plain_3 (a b x : ascii) : plain_byte x = true -> space3 a b x = false.
Proof.
  intros [Hx _]%plain_byte_inv. unfold space3. cbn zeta.
  below_128 (nat_of_ascii x). decide_tests.
Qed.

(** A plain byte ends every partial encoding: what does not start with
    white space still does not once the byte and more text follow. *)
Lemma lead_space_app (k r : string) (x : ascii) :
  plain_byte x = true -> lead_space k = false ->
  lead_space (k ++ String x r) = false.
Proof.
  intros Hx Hk. pose proof (proj2 (plain_byte_inv _ Hx)) as H1.
  destruct k as [|a [|b [|c k]]]; rewrite ?append_cons;
    change ("" ++ String x r) with (String x r); cbn [lead_space] in *.
  - rewrite H1. destruct r as [|b [|c r]]; cbn;
      now rewrite ?space2_plain_l, ?space3_plain_1.
  - apply orb_false_iff in Hk as [-> _].
    rewrite space2_plain_r by exact Hx.
    destruct r; cbn; now rewrite ?space3_plain_2.
  - apply orb_false_iff in Hk as [-> [-> _]%orb_false_iff].
    now rewrite space3_plain_3.
  - exact Hk.
Qed.

Lemma lead_space_rev_app (k r : string) (x : ascii) :
  plain_byte x = true -> lead_space_rev k = false ->
  lead_space_rev (k ++ String x r) = false.
Proof.
  intros Hx Hk. pose proof (proj2 (plain_byte_inv _ Hx)) as H1.
  destruct k as [|a [|b [|c k]]]; rewrite ?append_cons;
    change ("" ++ String x r) with (String x r); cbn [lead_space_rev] in *.
  - rewrite H1. destruct r as [|b [|c r]]; cbn;
      now rewrite ?space2_plain_r, ?space3_plain_3.
  - apply orb_false_iff in Hk as [-> _].
    rewrite space2_plain_l by exact Hx.
    destruct r; cbn; now rewrite ?space3_plain_2.
  - apply orb_false_iff in Hk as [-> [-> _]%orb_false_iff].
    now rewrite space3_plain_1.
  - exact Hk.
Qed.

Lemma is_quote_plain (q : ascii) : is_quote q = true -> plain_byte q = true.
Proof.
  unfold is_quote. intros [H|H]%orb_true_iff; apply Ascii.eqb_eq in H;
    subst q; reflexivity.
Qed.

Lemma HasPrefix_hash (c : ascii) (r : string) :
  HasPrefix (String c r) "#" = Ascii.eqb c "#".
Proof.
  unfold HasPrefix, slice. cbn.
  replace (substring 0 0 r) with "" by now destruct r.
  cbn. now destruct (Ascii.eqb c "#").
Qed.

Lemma cut_eq_app (k r : string) :
  cut_eq k = None -> cut_eq (k ++ String "=" r) = Some (k, r).
Proof.
  induction k as [|a k IH]; [reflexivity|].
  rewrite append_cons. cbn [cut_eq].
  destruct (Ascii.eqb a "="); [discriminate|].
  destruct (cut_eq k) as [[? ?]|]; [discriminate|].
  intros _. now rewrite IH.
Qed.

Lemma key_ok_inv (k : string) :
  key_ok k = true ->
  TrimSpace k = k /\ cut_eq k = None /\ HasPrefix k "#" = false.
Proof.
  unfold key_ok. intros [[H1 H2]%andb_true_iff H3]%andb_true_iff.
  apply String.eqb_eq in H1. apply negb_true_iff in H3.
  destruct (cut_eq k); [discriminate|]. auto.
Qed.

(** What follows a well-formed key and [=] is the candidate value, once
    trimmed; the line is neither blank nor a comment. *)
Lemma candidate_key_ok (k raw : string) :
  key_ok k = true -> TrimSpace raw = raw ->
  candidate (k ++ String "=" raw) = Some (k, raw).
Proof.
  intros (Hk & Hcut & Hhash)%key_ok_inv Hraw.
  destruct (TrimSpace_fixed _ Hk) as [Hkl Hkr].
  destruct (TrimSpace_fixed _ Hraw) as [Hrl Hrr].
  assert (TrimSpace (k ++ String "=" raw) = k ++ String "=" raw) as Hline.
  { apply TrimSpace_keep; [now apply lead_space_app|].
    rewrite rev_append, rev_cons, append_assoc.
    now apply lead_space_rev_app. }
  unfold candidate. cbn zeta. rewrite Hline.
  assert (String.eqb (k ++ String "=" raw) "" = false) as ->
      by (destruct k; reflexivity).
  assert (HasPrefix (k ++ String "=" raw) "#" = false) as ->.
  { destruct k as [|a k]; [apply HasPrefix_hash|].
    rewrite append_cons, HasPrefix_hash. now rewrite HasPrefix_hash in Hhash. }
  unfold SplitN_eq_2. rewrite (cut_eq_app _ _ Hcut). cbn [orb].
  now rewrite Hk, Hraw.
Qed.

Lemma TrimSpace_quoted (q : ascii) (v : string) :
  is_quote q = true ->
  TrimSpace (String q (v ++ string_of_byte q)) = String q (v ++ string_of_byte q).
Proof.
  intros Hq%is_quote_plain. apply TrimSpace_keep.
  - apply (lead_space_app "" _ q Hq). reflexivity.
  - rewrite rev_cons, rev_append. unfold string_of_byte at 1.
    rewrite rev_cons. change (String.rev "") with "".
    change ("" ++ string_of_byte q) with (String q "").
    rewrite append_cons. change ("" ++ String.rev v) with (String.rev v).
    apply (lead_space_rev_app "" _ q Hq). reflexivity.
Qed.

Lemma assign_unquoted (s : pstate) (k v : string) :
  value_unquoted v = true -> assign s k v = store s k v.
Proof.
  unfold value_unquoted. intros [_ H]%andb_true_iff.
  apply negb_true_iff, andb_false_iff in H. destruct H as [H|H].
  - apply assign_short. now apply Nat.leb_gt in H.
  - unfold assign. destruct (2 <=? String.length v)%nat; [|reflexivity].
    destruct v as [|c r]; [reflexivity|]. unfold byte_at.
    change (String.get 0 (String c r)) with (Some c).
    destruct (String.get (String.length (String c r) - 1) (String c r));
      [|reflexivity].
    now rewrite H.
Qed.

Lemma step_entry (s : pstate) (e : entry) :
  inMultiline s = false -> entry_ok e = true ->
  step s (entry_line e) = store s (entry_key e) (entry_value e).
Proof.
  intros Hm He. destruct e as [k v|q k v]; cbn in He;
    apply andb_true_iff in He as [Hk Hv]; cbn [entry_line entry_key entry_value].
  - change (k ++ "=" ++ v) with (k ++ String "=" v).
    assert (TrimSpace v = v) as Htv.
    { unfold value_unquoted in Hv. apply andb_true_iff in Hv as [Hv _].
      now apply String.eqb_eq. }
    rewrite (step_normal s _ k v Hm (candidate_key_ok k v Hk Htv)).
    now apply assign_unquoted.
  - change (k ++ "=" ++ String q (v ++ string_of_byte q))
      with (k ++ String "=" (String q (v ++ string_of_byte q))).
    rewrite (step_normal s _ k _ Hm
               (candidate_key_ok k _ Hk (TrimSpace_quoted q v Hv))).
    now apply assign_quoted.
Qed.

End EntryFacts.

(** * More on the parser *)

Module ParserExtras.
Import Parser ParserFacts EntryFacts.

Lemma forallb_snoc {A} (f : A -> bool) (l : list A) (x : A) :
  forallb f (l ++ [x])%list = forallb f l && f x.
Proof. rewrite forallb_app. cbn. now rewrite andb_true_r. Qed.

Lemma run_entries (s : pstate) (es : list entry) :
  inMultiline s = false ->
  forallb entry_ok es = true ->
  out (run s (map entry_line es)) = assigned es (out s)
  /\ inMultiline (run s (map entry_line es)) = false.
Proof.
  intros Hm. induction es as [|e es IH] using rev_ind; intros Hok.
  - now split.
  - rewrite forallb_snoc in Hok. apply andb_true_iff in Hok as [Hes He].
    destruct (IH Hes) as [Hout Hnorm].
    rewrite map_app. cbn [map]. rewrite run_snoc, (step_entry _ _ Hnorm He).
    unfold assigned. rewrite fold_left_app. cbn. split; [|exact Hnorm].
    now rewrite Hout.
Qed.

Lemma assigned_keeps (es : list entry) (mp : gmap string string)
    (k v : string) :
  Forall (fun e => entry_key e <> k) es ->
  mp !! k = Some v -> assigned es mp !! k = Some v.
Proof.
  intros Hall. revert mp. induction Hall as [|e es He _ IH]; intros mp Hk.
  - exact Hk.
  - cbn. apply IH. now rewrite lookup_insert_ne.
Qed.

Lemma last_assigned (es1 es2 : list entry) (e : entry)
    (mp : gmap string string) :
  Forall (fun e' => entry_key e' <> entry_key e) es2 ->
  assigned (es1 ++ e :: es2) mp !! entry_key e = Some (entry_value e).
Proof.
  intros Hlater. unfold assigned. rewrite fold_left_app. cbn [fold_left].
  apply (assigned_keeps es2); [exact Hlater|]. apply lookup_insert_eq.
Qed.

(** X1. A file made of well-formed one-line assignments, plain or quoted,
    parses to the assignments made in the order of the lines and leaves
    the parser in the normal state; so the last write wins: a key is bound
    to the value of the last line that assigns it. *)
Theorem entries_parsed_in_order (s : pstate) (es : list entry) :
  inMultiline s = false ->
  forallb entry_ok es = true ->
  out (run s (map entry_line es)) = assigned es (out s)
  /\ inMultiline (run s (map entry_line es)) = false
  /\ forall es1 e es2,
       es = (es1 ++ e :: es2)%list ->
       Forall (fun e' => entry_key e' <> entry_key e) es2 ->
       out (run s (map entry_line es)) !! entry_key e = Some (entry_value e).
Proof.
  intros Hm Hok. destruct (run_entries s es Hm Hok) as [Hout Hnorm].
  repeat split; [exact Hout | exact Hnorm |].
  intros es1 e es2 -> Hlater. rewrite Hout. now apply last_assigned.
Qed.

Lemma entries_parsed_in_order_witness :
  out (run pinit (map entry_line ex_entries))
  = {[ "PORT" := "9090"; "GREETING_TEXT" := "hello from test" ]}.
Proof.
  rewrite (proj1 (entries_parsed_in_order pinit ex_entries eq_refl eq_refl)).
  vm_compute. reflexivity.
Defined.

(** X2. Outside a multi-line value, a line that is blank, a comment, or
    without [=] can be added to or removed from a file without changing
    what the file parses to. *)
Theorem ignored_line_is_noop (s : pstate) (pre post : list string)
    (line : string) :
  inMultiline (run s pre) = false ->
  TrimSpace line = ""
  \/ HasPrefix (TrimSpace line) "#" = true
  \/ cut_eq (TrimSpace line) = None ->
  run s (pre ++ line :: post) = run s (pre ++ post).
Proof.
  intros Hm Hline. unfold run. rewrite !fold_left_app. cbn [fold_left].
  f_equal. fold (run s pre). unfold step. rewrite Hm. cbn [negb].
  unfold candidate, SplitN_eq_2. cbn zeta.
  destruct Hline as [-> | [-> | ->]]; [reflexivity | | ].
  - now rewrite orb_true_r.
  - now destruct (_ || _).
Qed.

Lemma ignored_line_is_noop_witness :
  run pinit ["A=1"; "   # PORT=1"; "B=2"] = run pinit ["A=1"; "B=2"]
  /\ run pinit ["A=1"; "no assignment here"; "B=2"] = run pinit ["A=1"; "B=2"].
Proof.
  split.
  - apply (ignored_line_is_noop pinit ["A=1"] ["B=2"] "   # PORT=1");
      [reflexivity | right; left; reflexivity].
  - apply (ignored_line_is_noop pinit ["A=1"] ["B=2"] "no assignment here");
      [reflexivity | right; right; reflexivity].
Defined.

(** A line changes the mapping by at most one insertion. *)
Lemma step_out (s : pstate) (line : string) :
  out (step s line) = out s
  \/ exists k v, out (step s line) = <[k := v]> (out s).
Proof.
  unfold step. destruct (inMultiline s); cbn [negb].
  - destruct (HasSuffix _ _); cbn; eauto.
  - destruct (candidate line) as [[k v]|]; [|now left].
    unfold assign, store.
    repeat match goal with
      | |- context [match ?x with _ => _ end] => destruct x
      end; cbn; eauto.
Qed.

(** X3. Parsing never unbinds a key: a key bound after some lines is still
    bound after any further lines (its value may have been overwritten). *)
Theorem bound_keys_stay_bound (s : pstate) (lines : list string) (k : string) :
  is_Some (out s !! k) -> is_Some (out (run s lines) !! k).
Proof.
  revert s. induction lines as [|l lines IH]; intros s Hk; [exact Hk|].
  rewrite run_cons. apply IH.
  destruct (step_out s l) as [-> | (k' & v' & ->)]; [exact Hk|].
  destruct (decide (k' = k)) as [->|Hne].
  - rewrite lookup_insert_eq. eauto.
  - now rewrite lookup_insert_ne.
Qed.

Lemma bound_keys_stay_bound_witness :
  is_Some (out (run (run pinit ["A=1"]) ["B=2"; "C='open"; "A=3"]) !! "A").
Proof.
  apply (bound_keys_stay_bound (run pinit ["A=1"]) ["B=2"; "C='open"; "A=3"] "A").
  vm_compute. eauto.
Defined.

Lemma step_loop_invariant (s : pstate) (line : string) :
  loop_invariant s -> loop_invariant (step s line).
Proof.
  unfold loop_invariant, step.
  destruct (inMultiline s) eqn:Hm; cbn [negb].
  - intros [Hq [txt Hv]]. destruct (HasSuffix _ _); cbn; [auto|].
    split; [exact Hq|]. exists (value s ++ line). now rewrite append_assoc.
  - intros [Hk Hv]. destruct (candidate line) as [[k v]|]; [|now rewrite Hm].
    unfold assign, store.
    destruct (2 <=? String.length v)%nat; [|cbn; now rewrite Hm].
    destruct (byte_at v 0) as [c|]; [|cbn; now rewrite Hm].
    destruct (byte_at v _) as [e|]; [|cbn; now rewrite Hm].
    destruct (is_quote c) eqn:Hc; cbn [andb];
      destruct (Ascii.eqb e c); cbn; rewrite ?Hm; eauto.
Qed.

(** X4. Whatever the lines read so far: while a multi-line value is open,
    the recorded quote is one of the two quote bytes and the pending value
    ends with a line terminator; otherwise the key and value variables are
    empty. *)
Theorem loop_variables_invariant (lines : list string) :
  let s := run pinit lines in
  (inMultiline s = true ->
   is_quote (quote s) = true /\ exists txt, value s = txt ++ nl)
  /\ (inMultiline s = false -> key s = "" /\ value s = "").
Proof.
  intros s. assert (loop_invariant s) as H.
  { subst s. induction lines as [|l lines IH] using rev_ind; [now split|].
    rewrite run_snoc. now apply step_loop_invariant. }
  unfold loop_invariant in H. destruct (inMultiline s); split; intros; auto;
    discriminate.
Qed.

Lemma loop_variables_invariant_witness :
  is_quote (quote (run pinit ["A=1"; "K='abc"; "more"])) = true
  /\ exists txt, value (run pinit ["A=1"; "K='abc"; "more"]) = txt ++ nl.
Proof.
  exact (proj1 (loop_variables_invariant ["A=1"; "K='abc"; "more"]) eq_refl).
Defined.

End ParserExtras.

(** * More on the lifecycle and the lookup *)

Module LifecycleExtras.
Import LifecycleClaims.

Lemma ensureStarted_started (o : os) (path : string) (w : world) :
  initOnce w = true -> ensureStarted o path w = w.
Proof. intros Hi. unfold ensureStarted. now rewrite Hi. Qed.

Lemma exec_keeps_start (w : world) (e : os * op) :
  initOnce w = true ->
  initOnce (exec w e) = true /\ watching (exec w e) = watching w.
Proof.
  intros Hi. destruct e as [o a].
  destruct a; unfold_api; rewrite ?Hi; split_cases; auto.
Qed.

(** X5. Only the first start has an effect: on a started package, [Init]
    with any path and [Getenv] leave the whole state as it is, and along
    every further run the watched path stays the one chosen at the start,
    whatever [WithDefaultPath] or the environment say later. *)
Theorem start_happens_once (o : os) (w : world) (path key : string)
    (def : list string) (tr : list (os * op)) :
  initOnce w = true ->
  Init o path w = w
  /\ snd (Getenv o key def w) = w
  /\ initOnce (execs w tr) = true
  /\ watching (execs w tr) = watching w.
Proof.
  intros Hi. repeat split.
  - now apply ensureStarted_started.
  - unfold Getenv. rewrite (ensureStarted_started _ _ _ Hi).
    destruct def; [reflexivity|]. now destruct (String.eqb _ _).
  - revert w Hi. induction tr as [|e tr IH]; intros w Hi; [exact Hi|].
    cbn. apply IH. now apply exec_keeps_start.
  - revert w Hi. induction tr as [|e tr IH]; intros w Hi; [reflexivity|].
    destruct (exec_keeps_start w e Hi) as (Hi' & Hw).
    change (execs w (e :: tr)) with (execs (exec w e) tr).
    now rewrite (IH _ Hi').
Qed.

Lemma start_happens_once_witness :
  Init ex_os "/other/.env" ex_started = ex_started
  /\ watching (execs ex_started
                 [(ex_os, OpWithDefaultPath "/other/.env"); (ex_os, OpInit "")])
     = Some "/app/secrets/.env".
Proof.
  destruct (start_happens_once ex_os ex_started "/other/.env" "" []
              [(ex_os, OpWithDefaultPath "/other/.env"); (ex_os, OpInit "")]
              eq_refl) as (H1 & _ & _ & H2).
  split; [exact H1 | rewrite H2; reflexivity].
Defined.

(** X6. At the first start the path is the first non-empty one of: the
    argument of [Init], the environment variable [SECRETS_FILE], the path
    last given to [WithDefaultPath], the built-in default; that file is
    the one loaded and the one watched. *)
Theorem path_precedence (o : os) (w : world) (path p : string) :
  initOnce w = false ->
  let chosen :=
    first_nonempty [path; os_Getenv o "SECRETS_FILE"; p] (defaultPath w) in
  let w' := Init o path (WithDefaultPath p w) in
  watching w' = Some chosen
  /\ cfg w' = Some (match Parser.loadEnvFile o chosen with
                    | (c, None) => c
                    | (_, Some _) => {| m := ∅ |}
                    end).
Proof.
  intros Hi chosen w'.
  assert (resolve_path o path (WithDefaultPath p w) = chosen) as Hr.
  { subst chosen. unfold resolve_path, WithDefaultPath, first_nonempty.
    destruct (String.eqb path ""); [|reflexivity].
    destruct (String.eqb (os_Getenv o "SECRETS_FILE") ""); [|reflexivity].
    now destruct (String.eqb p ""). }
  assert (initOnce (WithDefaultPath p w) = false) as Hi'
      by (unfold WithDefaultPath; now destruct (negb _)).
  subst w'. unfold Init.
  destruct (ensureStarted_installs o path _ Hi') as [_ Hc].
  rewrite Hr in Hc. split; [|exact Hc].
  unfold ensureStarted. rewrite Hi'. cbn. now rewrite Hr.
Qed.

Lemma path_precedence_witness :
  watching (Init ex_os "" (WithDefaultPath "/etc/app.env" world0))
  = Some "/etc/app.env".
Proof.
  exact (proj1 (path_precedence ex_os world0 "" "/etc/app.env" eq_refl)).
Defined.

Lemma exec_cancel_set (w : world) (e : os * op) :
  (initOnce w = true -> cancelFunc w = true) ->
  (initOnce (exec w e) = true -> cancelFunc (exec w e) = true).
Proof.
  intros Hw. destruct e as [o a].
  destruct a; unfold_api; split_cases; auto.
Qed.

Lemma exec_stays_cancelled (w : world) (e : os * op) :
  initOnce w = true /\ ctxDone w = true ->
  initOnce (exec w e) = true /\ ctxDone (exec w e) = true.
Proof.
  intros [Hi Hd]. destruct e as [o a].
  destruct a; unfold_api; rewrite ?Hi; split_cases; auto.
Qed.

(** X7. In every run from program start that has started the package and
    in which the stop guard is still unspent (no [Stop] has been called
    yet, before or after the start): [Stop] cancels the watcher's context,
    for good (no later call brings the watcher back), and leaves the
    snapshot readable: every [get] returns what it returned before. *)
Theorem stop_after_start_is_final (pre post : list (os * op)) :
  let w := execs world0 pre in
  initOnce w = true ->
  stopOnce w = false ->
  ctxDone (Stop w) = true
  /\ ctxDone (execs (Stop w) post) = true
  /\ forall o key, get o key (Stop w) = get o key w.
Proof.
  intros w Hi Hs.
  assert (cancelFunc w = true) as Hc.
  { assert (initOnce w = true -> cancelFunc w = true) as H;
      [|now apply H].
    subst w. apply (execs_preserves
                      (fun w => initOnce w = true -> cancelFunc w = true));
      [apply exec_cancel_set | discriminate]. }
  assert (initOnce (Stop w) = true /\ ctxDone (Stop w) = true) as Hstop
      by (unfold Stop; rewrite Hs, Hc; auto).
  repeat split.
  - apply Hstop.
  - apply (execs_preserves (fun w => initOnce w = true /\ ctxDone w = true));
      [apply exec_stays_cancelled | exact Hstop].
  - intros o key. apply get_depends; unfold Stop; now rewrite Hs.
Qed.

Lemma stop_after_start_is_final_witness :
  ctxDone (execs (Stop (execs world0 [(ex_os_port, OpInit "")]))
             [(ex_os, OpInit ""); (ex_os, OpGetenv "PORT" [])]) = true
  /\ get ex_os "PORT" (Stop (execs world0 [(ex_os_port, OpInit "")])) = "8080".
Proof.
  destruct (stop_after_start_is_final [(ex_os_port, OpInit "")]
              [(ex_os, OpInit ""); (ex_os, OpGetenv "PORT" [])]
              eq_refl eq_refl) as (_ & Hd & Hg).
  split; [exact Hd | rewrite Hg; reflexivity].
Defined.

End LifecycleExtras.

Module LookupExtras.
Import LifecycleClaims.

(** X8. The caller's defaults: only the first one counts; it is returned
    exactly when the lookup without default gives the empty string, so a
    non-empty default makes the result non-empty. *)
Theorem getenv_default (o : os) (w : world) (key d : string)
    (ds : list string) :
  fst (Getenv o key (d :: ds) w) = fst (Getenv o key [d] w)
  /\ fst (Getenv o key (d :: ds) w)
     = (if String.eqb (fst (Getenv o key [] w)) "" then d
        else fst (Getenv o key [] w))
  /\ (d <> "" -> fst (Getenv o key (d :: ds) w) <> "").
Proof.
  unfold Getenv. cbn zeta.
  destruct (String.eqb (get o key (ensureStarted o "" w)) "") eqn:E; cbn [fst];
    repeat split; try reflexivity; try (now rewrite E).
  - auto.
  - intros _. now apply String.eqb_neq in E.
Qed.

Lemma getenv_default_witness :
  fst (Getenv ex_os "PORT" ["8080"; "9090"] world0) <> "".
Proof.
  apply (proj2 (proj2 (getenv_default ex_os world0 "PORT" "8080" ["9090"]))).
  discriminate.
Defined.

(** X9. A reload that succeeds replaces the snapshot, it does not merge:
    what [get] returns afterwards is the policy on the new mapping alone,
    whatever the snapshot held before. *)
Theorem reload_replaces (o o' : os) (filePath key : string) (w : world)
    (c : config) :
  Parser.loadEnvFile o filePath = (c, None) ->
  cfg (reload o filePath w) = Some c
  /\ get o' key (reload o filePath w)
     = lookup_policy (m c) (optFallbackToProcessEnv w) (environ o') key None
  /\ (m c !! key = None -> optFallbackToProcessEnv w = false ->
      get o' key (reload o filePath w) = "").
Proof.
  intros Hok.
  assert (cfg (reload o filePath w) = Some c
          /\ optFallbackToProcessEnv (reload o filePath w)
             = optFallbackToProcessEnv w) as [Hc Hf]
      by (unfold reload; now rewrite Hok).
  assert (get o' key (reload o filePath w)
          = lookup_policy (m c) (optFallbackToProcessEnv w) (environ o') key None)
    as Hget by (rewrite (LookupClaims.get_policy _ _ _ _ Hc); now rewrite Hf).
  repeat split; [exact Hc | exact Hget |].
  intros Hk Hflag. rewrite Hget. unfold lookup_policy. now rewrite Hk, Hflag.
Qed.

Lemma reload_replaces_witness :
  get ex_os "PORT" (reload ex_os "/app/secrets/.env" (Init ex_os_port "" world0))
  = "".
Proof.
  exact (proj2 (proj2 (reload_replaces ex_os ex_os "/app/secrets/.env" "PORT"
                         (Init ex_os_port "" world0) {| m := ∅ |} eq_refl))
           eq_refl eq_refl).
Defined.

(** X10. A start whose initial load fails still launches the watcher on
    the path it resolved: the snapshot is empty until the timer fires on a
    readable file, and then holds that file's mapping; the file read is the
    one resolved at the start, even if [SECRETS_FILE] has changed since. *)
Theorem recovers_after_failed_initial_load (o1 o2 : os) (path : string)
    (w : world) (c : config) :
  initOnce w = false ->
  snd (Parser.loadEnvFile o1 (resolve_path o1 path w)) <> None ->
  Parser.loadEnvFile o2 (resolve_path o1 path w) = (c, None) ->
  cfg (Init o1 path w) = Some {| m := ∅ |}
  /\ watching (Init o1 path w) = Some (resolve_path o1 path w)
  /\ cfg (exec (Init o1 path w) (o2, OpTimerFires)) = Some c.
Proof.
  intros Hi Hfail Hok.
  assert (watching (Init o1 path w) = Some (resolve_path o1 path w)) as Hw
      by (unfold Init, ensureStarted; now rewrite Hi).
  repeat split; [| exact Hw |].
  - destruct (ensureStarted_installs o1 path w Hi) as [_ Hc].
    unfold Init. rewrite Hc.
    destruct (Parser.loadEnvFile o1 _) as [c1 [e|]]; [reflexivity|].
    now contradiction Hfail.
  - unfold exec. rewrite Hw. unfold reload. now rewrite Hok.
Qed.

Lemma recovers_after_failed_initial_load_witness :
  cfg (exec (Init ex_os_unreadable "" world0) (ex_os_port, OpTimerFires))
  = Some {| m := {[ "PORT" := "8080" ]} |}.
Proof.
  refine (proj2 (proj2 (recovers_after_failed_initial_load ex_os_unreadable
                          ex_os_port "" world0 {| m := {[ "PORT" := "8080" ]} |}
                          eq_refl _ eq_refl))).
  vm_compute. discriminate.
Defined.

Lemma exec_keeps_cfg (w : world) (e : os * op) :
  initOnce w = true -> snd e <> OpTimerFires ->
  initOnce (exec w e) = true /\ cfg (exec w e) = cfg w.
Proof.
  intros Hi Hne. destruct e as [o a]. cbn [snd] in Hne.
  destruct a; try congruence; unfold_api; rewrite ?Hi; split_cases; auto.
Qed.

(** X11. After the start, the snapshot changes only when the debounce
    timer fires: no sequence of [Getenv], [Init], [Stop] and configuration
    calls changes it. *)
Theorem snapshot_changes_only_on_timer (w : world) (tr : list (os * op)) :
  initOnce w = true ->
  Forall (fun e => snd e <> OpTimerFires) tr ->
  cfg (execs w tr) = cfg w.
Proof.
  intros Hi Hall. revert w Hi.
  induction Hall as [|e tr He _ IH]; intros w Hi; [reflexivity|].
  destruct (exec_keeps_cfg w e Hi He) as [Hi' Hc].
  change (execs w (e :: tr)) with (execs (exec w e) tr).
  now rewrite (IH _ Hi').
Qed.

Lemma snapshot_changes_only_on_timer_witness :
  cfg (execs (Init ex_os_port "" world0)
         [(ex_os, OpGetenv "PORT" []); (ex_os, OpInit "/x"); (ex_os, OpStop);
          (ex_os, OpWithDefaultPath "/y")])
  = Some {| m := {[ "PORT" := "8080" ]} |}.
Proof.
  rewrite (snapshot_changes_only_on_timer (Init ex_os_port "" world0)
             [(ex_os, OpGetenv "PORT" []); (ex_os, OpInit "/x"); (ex_os, OpStop);
              (ex_os, OpWithDefaultPath "/y")] eq_refl).
  - reflexivity.
  - repeat constructor; discriminate.
Defined.

(** X12. From file to caller: when the file resolved at the (lazy) start
    is made of well-formed one-line assignments and is read without error,
    [Getenv] returns, for a key whose last assignment is non-empty, the
    value of that assignment, whatever the environment and the default. *)
Theorem file_entry_served (o : os) (w : world) (es1 es2 : list entry)
    (e : entry) (def : list string) :
  initOnce w = false ->
  files o (resolve_path o "" w)
  = Scanned (map entry_line (es1 ++ e :: es2)) None ->
  forallb entry_ok (es1 ++ e :: es2) = true ->
  Forall (fun e' => entry_key e' <> entry_key e) es2 ->
  entry_value e <> "" ->
  fst (Getenv o (entry_key e) def w) = entry_value e.
Proof.
  intros Hi Hfile Hok Hlater Hne.
  destruct (ensureStarted_installs o "" w Hi) as [_ Hc].
  unfold Parser.loadEnvFile in Hc. rewrite Hfile in Hc.
  rewrite (LookupClaims.Getenv_policy _ _ _ _ _ Hc). cbn [fst m].
  destruct (ParserExtras.run_entries Parser.pinit _ eq_refl Hok) as [Hout _].
  unfold lookup_policy. rewrite Hout, ParserExtras.last_assigned by exact Hlater.
  destruct (entry_value e); [now contradiction Hne | reflexivity].
Qed.

Lemma file_entry_served_witness :
  fst (Getenv ex_os_entries "GREETING_TEXT" ["Hello"] world0) = "hello from test".
Proof.
  apply (file_entry_served ex_os_entries world0 [Plain "PORT" "8080"]
           [Plain "PORT" "9090"] (Quoted dquote "GREETING_TEXT" "hello from test")
           ["Hello"] eq_refl eq_refl eq_refl).
  - repeat constructor; discriminate.
  - discriminate.
Defined.

End LookupExtras.

(** * Blanks around the key, the [=] and the value *)

Module PaddingFacts.
Import Parser ParserFacts TrimFacts EntryFacts.

Lemma low_byte_inv (x : ascii) : low_byte x = true -> nat_of_ascii x < 128.
Proof. unfold low_byte. apply Nat.ltb_lt. Qed.

Lemma space1_low (a : ascii) : space1 a = true -> low_byte a = true.
Proof.
  unfold space1, low_byte. cbn zeta.
  intros [[H1 H2]%andb_true_iff | H]%orb_true_iff; apply Nat.ltb_lt.
  - apply Nat.leb_le in H2. lia.
  - apply Nat.eqb_eq in H. lia.
Qed.

Lemma space2_low_r (a x : ascii) : low_byte x = true -> space2 a x = false.
Proof.
  intros Hx%low_byte_inv. unfold space2. cbn zeta.
  below_128 (nat_of_ascii x). decide_tests.
Qed.

Lemma space2_low_l (x b : ascii) : low_byte x = true -> space2 x b = false.
Proof.
  intros Hx%low_byte_inv. unfold space2. cbn zeta.
  below_128 (nat_of_ascii x). decide_tests.
Qed.

Lemma space3_low_1 (x b c : ascii) : low_byte x = true -> space3 x b c = false.
Proof.
  intros Hx%low_byte_inv. unfold space3. cbn zeta.
  below_128 (nat_of_ascii x). decide_tests.
Qed.

Lemma space3_low_2 (a x c : ascii) : low_byte x = true -> space3 a x c = false.
Proof.
  intros Hx%low_byte_inv. unfold space3. cbn zeta.
  below_128 (nat_of_ascii x). decide_tests.
Qed.

Lemma space3_low_3 (a b x : ascii) : low_byte x = true -> space3 a b x = false.
Proof.
  intros Hx%low_byte_inv. unfold space3. cbn zeta.
  below_128 (nat_of_ascii x). decide_tests.
Qed.

(** Text that does not start with white space still does not when text
    starting with a low byte follows it. *)
Lemma lead_space_app_low (k r : string) :
  k <> "" -> lead_space k = false -> starts_low r = true ->
  lead_space (k ++ r) = false.
Proof.
  intros Hne Hk Hr.
  destruct k as [|a [|b [|c k]]]; [congruence | | |];
    rewrite ?append_cons; change ("" ++ r) with r; cbn [lead_space] in *.
  - apply orb_false_iff in Hk as [-> _].
    destruct r as [|x [|y r]]; cbn in *;
      now rewrite ?space2_low_r, ?space3_low_2.
  - apply orb_false_iff in Hk as [-> [-> _]%orb_false_iff].
    destruct r as [|x r]; cbn in *; now rewrite ?space3_low_3.
  - exact Hk.
Qed.

Lemma lead_space_rev_app_low (k r : string) :
  k <> "" -> lead_space_rev k = false -> starts_low r = true ->
  lead_space_rev (k ++ r) = false.
Proof.
  intros Hne Hk Hr.
  destruct k as [|a [|b [|c k]]]; [congruence | | |];
    rewrite ?append_cons; change ("" ++ r) with r; cbn [lead_space_rev] in *.
  - apply orb_false_iff in Hk as [-> _].
    destruct r as [|x [|y r]]; cbn in *;
      now rewrite ?space2_low_l, ?space3_low_2.
  - apply orb_false_iff in Hk as [-> [-> _]%orb_false_iff].
    destruct r as [|x r]; cbn in *; now rewrite ?space3_low_1.
  - exact Hk.
Qed.

Lemma TL_space (a : ascii) (s : string) :
  space1 a = true -> TrimLeftSpace (String a s) = TrimLeftSpace s.
Proof.
  intros Ha. destruct s as [|b [|c s]];
    rewrite ?TL_eq1, ?TL_eq2, ?TL_eq3, Ha; reflexivity.
Qed.

Lemma TR_space (a : ascii) (s : string) :
  space1 a = true -> TrimLeftSpace_rev (String a s) = TrimLeftSpace_rev s.
Proof.
  intros Ha. destruct s as [|b [|c s]];
    rewrite ?TR_eq1, ?TR_eq2, ?TR_eq3, Ha; reflexivity.
Qed.

Lemma TL_blanks_app (p x : string) :
  blanks p = true -> TrimLeftSpace (p ++ x) = TrimLeftSpace x.
Proof.
  induction p as [|a p IH]; [reflexivity|]. cbn [blanks].
  intros [Ha Hp]%andb_true_iff. rewrite append_cons, TL_space by exact Ha.
  now apply IH.
Qed.

Lemma TR_blanks_app (p x : string) :
  blanks p = true -> TrimLeftSpace_rev (p ++ x) = TrimLeftSpace_rev x.
Proof.
  induction p as [|a p IH]; [reflexivity|]. cbn [blanks].
  intros [Ha Hp]%andb_true_iff. rewrite append_cons, TR_space by exact Ha.
  now apply IH.
Qed.

Lemma blanks_app (p p' : string) :
  blanks (p ++ p') = blanks p && blanks p'.
Proof.
  induction p as [|a p IH]; [reflexivity|].
  rewrite append_cons. cbn [blanks]. now rewrite IH, andb_assoc.
Qed.

Lemma blanks_rev (p : string) : blanks (String.rev p) = blanks p.
Proof.
  induction p as [|a p IH]; [reflexivity|].
  rewrite rev_cons, blanks_app, IH. cbn. now rewrite andb_true_r, andb_comm.
Qed.

Lemma blanks_starts_low (p r : string) :
  blanks p = true -> starts_low r = true -> starts_low (p ++ r) = true.
Proof.
  destruct p as [|a p]; [auto|]. cbn [blanks].
  intros [Ha _]%andb_true_iff _. rewrite append_cons. cbn.
  now apply space1_low.
Qed.

Lemma rev_nonempty (s : string) : s <> "" -> String.rev s <> "".
Proof.
  intros Hne Hrev. apply (f_equal String.length) in Hrev.
  rewrite rev_length in Hrev. destruct s; [congruence | discriminate].
Qed.

(** [TrimSpace] undoes blanks put around text that has no white space at
    its ends. *)
Lemma trim_padded (p p' s : string) :
  blanks p = true -> blanks p' = true -> TrimSpace s = s ->
  TrimSpace (p ++ s ++ p') = s.
Proof.
  intros Hp Hp' Hs. unfold TrimSpace, TrimRightSpace.
  rewrite (TL_blanks_app _ _ Hp).
  destruct (String.eqb_spec s "") as [->|Hne].
  - change ("" ++ p') with p'.
    rewrite <- (append_empty_r p'), (TL_blanks_app _ _ Hp'). reflexivity.
  - destruct (TrimSpace_fixed _ Hs) as [Hl Hr].
    rewrite TL_keep.
    2:{ apply lead_space_app_low; [exact Hne | exact Hl |].
        rewrite <- (append_empty_r p'). now apply blanks_starts_low. }
    rewrite rev_append, TR_blanks_app by now rewrite blanks_rev.
    now rewrite (TR_keep _ Hr), rev_involutive.
Qed.

Lemma space1_not_eq (a : ascii) : space1 a = true -> Ascii.eqb a "=" = false.
Proof.
  intros Ha. destruct (Ascii.eqb_spec a "=") as [->|]; [|reflexivity].
  discriminate.
Qed.

Lemma cut_eq_blanks (k p : string) :
  cut_eq k = None -> blanks p = true -> cut_eq (k ++ p) = None.
Proof.
  intros Hk Hp. induction k as [|a k IH].
  - change ("" ++ p) with p. clear Hk.
    induction p as [|b p IHp]; [reflexivity|]. cbn [blanks] in Hp.
    apply andb_true_iff in Hp as [Hb Hp]. cbn [cut_eq].
    now rewrite (space1_not_eq _ Hb), (IHp Hp).
  - rewrite append_cons. cbn [cut_eq] in *.
    destruct (Ascii.eqb a "="); [discriminate|].
    destruct (cut_eq k) as [[? ?]|]; [discriminate|]. now rewrite IH.
Qed.

(** The candidate of a line whose trimmed form is [K=V]. *)
Lemma candidate_core (P P' K V k raw : string) :
  blanks P = true -> blanks P' = true ->
  TrimSpace (K ++ String "=" V) = K ++ String "=" V ->
  HasPrefix (K ++ String "=" V) "#" = false ->
  cut_eq K = None -> TrimSpace K = k -> TrimSpace V = raw ->
  candidate (P ++ (K ++ String "=" V) ++ P') = Some (k, raw).
Proof.
  intros HP HP' Hfix Hhash Hcut HK HV. unfold candidate. cbn zeta.
  rewrite (trim_padded _ _ _ HP HP' Hfix), Hhash.
  assert (String.eqb (K ++ String "=" V) "" = false) as ->
      by (destruct K; reflexivity).
  unfold SplitN_eq_2. rewrite (cut_eq_app _ _ Hcut). cbn [orb].
  now rewrite HK, HV.
Qed.

Lemma lead_core (k p2 V : string) :
  k <> "" -> lead_space k = false -> blanks p2 = true ->
  lead_space ((k ++ p2) ++ String "=" V) = false.
Proof.
  intros Hne Hk Hp. rewrite append_assoc.
  apply lead_space_app_low; [exact Hne | exact Hk |].
  now apply blanks_starts_low.
Qed.

Lemma lead_core0 (V : string) : lead_space ("" ++ String "=" V) = false.
Proof. now apply lead_space_app. Qed.

Lemma trail_core (K p3 raw : string) :
  raw <> "" -> lead_space_rev (String.rev raw) = false -> blanks p3 = true ->
  lead_space_rev (String.rev (K ++ String "=" (p3 ++ raw))) = false.
Proof.
  intros Hne Hr Hp.
  rewrite rev_append, rev_cons, rev_append, !append_assoc.
  apply lead_space_rev_app_low; [now apply rev_nonempty | exact Hr |].
  apply blanks_starts_low; [now rewrite blanks_rev | reflexivity].
Qed.

Lemma trail_core0 (K : string) :
  lead_space_rev (String.rev (K ++ String "=" "")) = false.
Proof.
  rewrite rev_append, rev_cons. change (String.rev "") with "".
  change (("" ++ string_of_byte "=") ++ String.rev K)
    with ("" ++ String "=" (String.rev K)).
  now apply lead_space_rev_app.
Qed.

Lemma hash_core (k p2 V : string) :
  k <> "" -> HasPrefix k "#" = false ->
  HasPrefix ((k ++ p2) ++ String "=" V) "#" = false.
Proof.
  destruct k as [|a k]; [congruence|]. intros _ Hk.
  rewrite !append_cons, HasPrefix_hash. now rewrite HasPrefix_hash in Hk.
Qed.

(** Blanks before the key, around [=] and after the value do not change
    the candidate of a line. *)
Lemma candidate_padded (p1 p2 p3 p4 k raw : string) :
  key_ok k = true -> TrimSpace raw = raw ->
  blanks p1 = true -> blanks p2 = true ->
  blanks p3 = true -> blanks p4 = true ->
  candidate (p1 ++ k ++ p2 ++ String "=" (p3 ++ raw ++ p4)) = Some (k, raw).
Proof.
  intros (Hk & Hcut & Hhash)%key_ok_inv Hraw H1 H2 H3 H4.
  destruct (TrimSpace_fixed _ Hk) as [Hkl Hkr].
  destruct (TrimSpace_fixed _ Hraw) as [Hrl Hrr].
  destruct (String.eqb_spec k "") as [->|Hkne];
    destruct (String.eqb_spec raw "") as [->|Hrne].
  - replace (p1 ++ "" ++ p2 ++ String "=" (p3 ++ "" ++ p4))
      with ((p1 ++ p2) ++ ("" ++ String "=" "") ++ (p3 ++ p4))
      by (rewrite ?append_assoc, ?append_cons, ?append_assoc; reflexivity).
    apply candidate_core; try reflexivity; now rewrite blanks_app, ?H1, ?H3.
  - replace (p1 ++ "" ++ p2 ++ String "=" (p3 ++ raw ++ p4))
      with ((p1 ++ p2) ++ ("" ++ String "=" (p3 ++ raw)) ++ p4)
      by (rewrite ?append_assoc, ?append_cons, ?append_assoc; reflexivity).
    apply candidate_core; try reflexivity; try assumption.
    + now rewrite blanks_app, H1.
    + apply TrimSpace_keep; [apply lead_core0 | now apply trail_core].
    + rewrite <- (append_empty_r raw) at 1. now apply trim_padded.
  - replace (p1 ++ k ++ p2 ++ String "=" (p3 ++ "" ++ p4))
      with (p1 ++ ((k ++ p2) ++ String "=" "") ++ (p3 ++ p4))
      by (rewrite ?append_assoc, ?append_cons, ?append_assoc; reflexivity).
    apply candidate_core; try reflexivity; try assumption.
    + now rewrite blanks_app, H3.
    + apply TrimSpace_keep; [now apply lead_core | apply trail_core0].
    + now apply hash_core.
    + now apply cut_eq_blanks.
    + now apply (trim_padded "" p2 k).
  - replace (p1 ++ k ++ p2 ++ String "=" (p3 ++ raw ++ p4))
      with (p1 ++ ((k ++ p2) ++ String "=" (p3 ++ raw)) ++ p4)
      by (rewrite ?append_assoc, ?append_cons, ?append_assoc; reflexivity).
    apply candidate_core; try assumption.
    + apply TrimSpace_keep; [now apply lead_core | now apply trail_core].
    + now apply hash_core.
    + now apply cut_eq_blanks.
    + now apply (trim_padded "" p2 k).
    + rewrite <- (append_empty_r raw) at 1. now apply trim_padded.
Qed.

End PaddingFacts.

Module PaddingExtras.
Import Parser ParserFacts EntryFacts PaddingFacts.

(** X13. Blanks (spaces, tabs and the like) before the key, on either side
    of [=] and after the value are not part of the assignment: in the
    normal state, the padded line does what the bare line does, it binds
    the key to the value. *)
Theorem blanks_around_are_dropped (s : pstate) (p1 p2 p3 p4 : string)
    (e : entry) :
  inMultiline s = false ->
  entry_ok e = true ->
  blanks p1 = true -> blanks p2 = true ->
  blanks p3 = true -> blanks p4 = true ->
  step s (padded_line p1 p2 p3 p4 e) = step s (entry_line e)
  /\ out (step s (padded_line p1 p2 p3 p4 e))
     = <[entry_key e := entry_value e]> (out s).
Proof.
  intros Hm He H1 H2 H3 H4.
  rewrite (step_entry s e Hm He).
  assert (step s (padded_line p1 p2 p3 p4 e)
          = store s (entry_key e) (entry_value e)) as ->; [|now split].
  destruct e as [k v|q k v]; cbn in He;
    apply andb_true_iff in He as [Hk Hv];
    cbn [padded_line entry_key entry_value].
  - change (p1 ++ k ++ p2 ++ "=" ++ p3 ++ v ++ p4)
      with (p1 ++ k ++ p2 ++ String "=" (p3 ++ v ++ p4)).
    assert (TrimSpace v = v) as Htv.
    { unfold value_unquoted in Hv. apply andb_true_iff in Hv as [Hv _].
      now apply String.eqb_eq. }
    rewrite (step_normal s _ k v Hm
               (candidate_padded p1 p2 p3 p4 k v Hk Htv H1 H2 H3 H4)).
    now apply assign_unquoted.
  - change (p1 ++ k ++ p2 ++ "=" ++ p3 ++ String q (v ++ string_of_byte q) ++ p4)
      with (p1 ++ k ++ p2
            ++ String "=" (p3 ++ String q (v ++ string_of_byte q) ++ p4)).
    rewrite (step_normal s _ k _ Hm
               (candidate_padded p1 p2 p3 p4 k _ Hk
                  (TrimSpace_quoted q v Hv) H1 H2 H3 H4)).
    now apply assign_quoted.
Qed.

Lemma blanks_around_are_dropped_witness :
  padded_line "  " " " " " "  " (Plain "SPACING" "trimmed")
  = "  SPACING = trimmed  "
  /\ out (step pinit (padded_line "  " " " " " "  " (Plain "SPACING" "trimmed")))
     = {[ "SPACING" := "trimmed" ]}.
Proof.
  split; [reflexivity|].
  rewrite (proj2 (blanks_around_are_dropped pinit "  " " " " " "  "
                    (Plain "SPACING" "trimmed")
                    eq_refl eq_refl eq_refl eq_refl eq_refl eq_refl)).
  reflexivity.
Defined.

End PaddingExtras.

(** * The shape of parsed keys, and the closing line *)

Module ShapeFacts.
Import Parser ParserFacts TrimFacts EntryFacts.

Lemma TL_lead (s : string) : lead_space (TrimLeftSpace s) = false.
Proof.
  remember (String.length s) as n eqn:Hn. revert s Hn.
  induction n as [n IH] using lt_wf_ind. intros s ->.
  destruct (lead_space s) eqn:Hl; [|now rewrite TL_keep].
  destruct s as [|a [|b [|c s]]]; [reflexivity | | |].
  - rewrite TL_eq1. cbn in Hl. now destruct (space1 a).
  - rewrite TL_eq2. cbn [lead_space] in Hl. destruct (space1 a).
    + apply (IH 1); [cbn; lia | reflexivity].
    + destruct (space2 a b); [reflexivity | discriminate].
  - rewrite TL_eq3. cbn [lead_space] in Hl. destruct (space1 a).
    + eapply IH; [|reflexivity]. cbn. lia.
    + destruct (space2 a b).
      * eapply IH; [|reflexivity]. cbn. lia.
      * destruct (space3 a b c); [|discriminate].
        eapply IH; [|reflexivity]. cbn. lia.
Qed.

Lemma TR_lead (s : string) : lead_space_rev (TrimLeftSpace_rev s) = false.
Proof.
  remember (String.length s) as n eqn:Hn. revert s Hn.
  induction n as [n IH] using lt_wf_ind. intros s ->.
  destruct (lead_space_rev s) eqn:Hl; [|now rewrite TR_keep].
  destruct s as [|a [|b [|c s]]]; [reflexivity | | |].
  - rewrite TR_eq1. cbn in Hl. now destruct (space1 a).
  - rewrite TR_eq2. cbn [lead_space_rev] in Hl. destruct (space1 a).
    + apply (IH 1); [cbn; lia | reflexivity].
    + destruct (space2 b a); [reflexivity | discriminate].
  - rewrite TR_eq3. cbn [lead_space_rev] in Hl. destruct (space1 a).
    + eapply IH; [|reflexivity]. cbn. lia.
    + destruct (space2 b a).
      * eapply IH; [|reflexivity]. cbn. lia.
      * destruct (space3 c b a); [|discriminate].
        eapply IH; [|reflexivity]. cbn. lia.
Qed.

(** Trimming cuts a piece off the front. *)
Lemma TL_suffix (s : string) : exists z, s = z ++ TrimLeftSpace s.
Proof.
  remember (String.length s) as n eqn:Hn. revert s Hn.
  induction n as [n IH] using lt_wf_ind. intros s ->.
  assert (forall t, String.length t < String.length s ->
                    exists z, t = z ++ TrimLeftSpace t) as IH'
      by (intros t Ht; exact (IH _ Ht t eq_refl)).
  clear IH. destruct s as [|a [|b [|c s]]]; [now exists "" | | |].
  - rewrite TL_eq1. destruct (space1 a); [now exists (String a "") | now exists ""].
  - rewrite TL_eq2. destruct (space1 a).
    + destruct (IH' (String b "") ltac:(cbn; lia)) as [z Hz].
      exists (String a z). rewrite append_cons. now rewrite <- Hz.
    + destruct (space2 a b); [now exists (String a (String b "")) | now exists ""].
  - rewrite TL_eq3. destruct (space1 a).
    + destruct (IH' (String b (String c s)) ltac:(cbn; lia)) as [z Hz].
      exists (String a z). rewrite append_cons. now rewrite <- Hz.
    + destruct (space2 a b).
      * destruct (IH' (String c s) ltac:(cbn; lia)) as [z Hz].
        exists (String a (String b z)). rewrite !append_cons. now rewrite <- Hz.
      * destruct (space3 a b c); [|now exists ""].
        destruct (IH' s ltac:(cbn; lia)) as [z Hz].
        exists (String a (String b (String c z))). rewrite !append_cons.
        now rewrite <- Hz.
Qed.

Lemma TR_suffix (s : string) : exists z, s = z ++ TrimLeftSpace_rev s.
Proof.
  remember (String.length s) as n eqn:Hn. revert s Hn.
  induction n as [n IH] using lt_wf_ind. intros s ->.
  assert (forall t, String.length t < String.length s ->
                    exists z, t = z ++ TrimLeftSpace_rev t) as IH'
      by (intros t Ht; exact (IH _ Ht t eq_refl)).
  clear IH. destruct s as [|a [|b [|c s]]]; [now exists "" | | |].
  - rewrite TR_eq1. destruct (space1 a); [now exists (String a "") | now exists ""].
  - rewrite TR_eq2. destruct (space1 a).
    + destruct (IH' (String b "") ltac:(cbn; lia)) as [z Hz].
      exists (String a z). rewrite append_cons. now rewrite <- Hz.
    + destruct (space2 b a); [now exists (String a (String b "")) | now exists ""].
  - rewrite TR_eq3. destruct (space1 a).
    + destruct (IH' (String b (String c s)) ltac:(cbn; lia)) as [z Hz].
      exists (String a z). rewrite append_cons. now rewrite <- Hz.
    + destruct (space2 b a).
      * destruct (IH' (String c s) ltac:(cbn; lia)) as [z Hz].
        exists (String a (String b z)). rewrite !append_cons. now rewrite <- Hz.
      * destruct (space3 c b a); [|now exists ""].
        destruct (IH' s ltac:(cbn; lia)) as [z Hz].
        exists (String a (String b (String c z))). rewrite !append_cons.
        now rewrite <- Hz.
Qed.

Lemma lead_space_prefix (x y : string) :
  lead_space (x ++ y) = false -> lead_space x = false.
Proof.
  destruct x as [|a [|b [|c x]]]; rewrite ?append_cons; cbn [lead_space];
    [reflexivity | | | auto].
  - intros [-> _]%orb_false_iff. reflexivity.
  - intros [-> [-> _]%orb_false_iff]%orb_false_iff. reflexivity.
Qed.

(** [TrimSpace s] is a piece of [s]. *)
Lemma TrimSpace_piece (s : string) :
  exists z1 z2, s = z1 ++ TrimSpace s ++ z2
                /\ TrimLeftSpace s = TrimSpace s ++ z2.
Proof.
  destruct (TL_suffix s) as [z1 H1].
  destruct (TR_suffix (String.rev (TrimLeftSpace s))) as [z H2].
  apply (f_equal String.rev) in H2. rewrite rev_involutive, rev_append in H2.
  exists z1, (String.rev z). unfold TrimSpace, TrimRightSpace.
  split; [|exact H2]. now rewrite <- H2.
Qed.

(** [TrimSpace] leaves no white space at either end. *)
Lemma TrimSpace_idem (s : string) : TrimSpace (TrimSpace s) = TrimSpace s.
Proof.
  apply TrimSpace_keep.
  - destruct (TrimSpace_piece s) as (z1 & z2 & _ & H).
    apply (lead_space_prefix _ z2). rewrite <- H. apply TL_lead.
  - unfold TrimSpace, TrimRightSpace. rewrite rev_involutive. apply TR_lead.
Qed.

Lemma cut_eq_none_app (a b : string) :
  cut_eq (a ++ b) = None -> cut_eq a = None /\ cut_eq b = None.
Proof.
  induction a as [|x a IH]; [now split|].
  rewrite append_cons. cbn [cut_eq].
  destruct (Ascii.eqb x "="); [discriminate|].
  destruct (cut_eq (a ++ b)) as [[? ?]|] eqn:E; [discriminate|].
  intros _. destruct (IH eq_refl) as [-> Hb]. now split.
Qed.

Lemma cut_eq_some (s a b : string) :
  cut_eq s = Some (a, b) -> cut_eq a = None.
Proof.
  revert a b. induction s as [|x s IH]; intros a b; [discriminate|].
  cbn [cut_eq]. destruct (Ascii.eqb x "=") eqn:Ex.
  - intros [= <- _]. reflexivity.
  - destruct (cut_eq s) as [[a' b']|]; [|discriminate].
    intros [= <- _]. cbn [cut_eq]. now rewrite Ex, (IH a' b' eq_refl).
Qed.

Lemma candidate_key_shape (line k v : string) :
  candidate line = Some (k, v) -> key_shape k.
Proof.
  unfold candidate, SplitN_eq_2. cbn zeta.
  destruct (_ || _); [discriminate|].
  destruct (cut_eq (TrimSpace line)) as [[a b]|] eqn:E; [|discriminate].
  intros [= <- _]. split; [apply TrimSpace_idem|].
  apply cut_eq_some in E.
  destruct (TrimSpace_piece a) as (z1 & z2 & Ha & _).
  rewrite Ha in E. apply cut_eq_none_app in E as [_ E].
  now apply cut_eq_none_app in E as [E _].
Qed.

Lemma insert_key_shape (mp : gmap string string) (k v : string) :
  key_shape k ->
  (forall k', is_Some (mp !! k') -> key_shape k') ->
  forall k', is_Some (<[k := v]> mp !! k') -> key_shape k'.
Proof.
  intros Hk Hmp k'. destruct (decide (k = k')) as [<-|Hne]; [auto|].
  rewrite lookup_insert_ne by exact Hne. apply Hmp.
Qed.

Lemma step_keys_invariant (s : pstate) (line : string) :
  keys_invariant s -> keys_invariant (step s line).
Proof.
  intros [Hout Hkey]. unfold step.
  destruct (inMultiline s) eqn:Hm; cbn [negb].
  - destruct (HasSuffix _ _); split; cbn; try discriminate; auto.
    now apply insert_key_shape; [apply Hkey|].
  - destruct (candidate line) as [[k v]|] eqn:Hc; [|now split; rewrite ?Hm].
    pose proof (candidate_key_shape _ _ _ Hc) as Hk.
    unfold assign, store.
    repeat match goal with
      | |- context [match ?x with _ => _ end] => destruct x
      end; split; cbn; rewrite ?Hm; try discriminate; auto;
      now apply insert_key_shape.
Qed.

(** The one-byte suffix test looks at the last byte. *)
Lemma HasSuffix_byte (line : string) (q : ascii) :
  HasSuffix line (string_of_byte q) = true
  <-> byte_at line (String.length line - 1) = Some q.
Proof.
  split.
  - intros Hs. destruct (byte_at line (String.length line - 1)) as [e|] eqn:E.
    + destruct (Ascii.eqb_spec e q) as [->|Hne]; [reflexivity|].
      destruct (last_byte_shape _ _ E) as [body ->].
      unfold HasSuffix in Hs.
      change (String.length (string_of_byte q))
        with (String.length (string_of_byte e)) in Hs.
      rewrite slice_back in Hs.
      apply andb_true_iff in Hs as [_ Hs]. apply String.eqb_eq in Hs.
      injection Hs as ->. congruence.
    + destruct line as [|c line]; [discriminate|].
      unfold byte_at in E.
      destruct (get_in_range (String c line) (String.length (String c line) - 1))
        as [e He]; [cbn; lia | congruence].
  - intros Hb. destruct (last_byte_shape _ _ Hb) as [body ->].
    apply HasSuffix_app.
Qed.

End ShapeFacts.

Module ShapeExtras.
Import Parser ParserFacts ShapeFacts.

(** X14. Every key of a parsed mapping is its own [TrimSpace] (no white
    space at its ends) and holds no [=], whatever the lines. *)
Theorem parsed_keys_shape (lines : list string) (k : string) :
  is_Some (out (run pinit lines) !! k) ->
  TrimSpace k = k /\ cut_eq k = None.
Proof.
  assert (keys_invariant (run pinit lines)) as [H _]; [|apply H].
  induction lines as [|l lines IH] using rev_ind.
  - split; [|discriminate]. intros k' [v Hv]. cbn in Hv.
    now rewrite lookup_empty in Hv.
  - rewrite run_snoc. now apply step_keys_invariant.
Qed.

Lemma parsed_keys_shape_witness :
  TrimSpace "SPACING" = "SPACING" /\ cut_eq "SPACING" = None.
Proof.
  apply (parsed_keys_shape ["# c"; "  SPACING = a=b "; "K='x"; "y'"] "SPACING").
  vm_compute. eauto.
Defined.

(** X15. While a multi-line value is open, a raw line closes it exactly
    when its last byte is the recorded quote: an empty line, or a line on
    which anything (a blank included) follows the quote, is appended whole
    with a line terminator and nothing is stored. *)
Theorem closing_decided_by_last_byte (s : pstate) (line : string) :
  inMultiline s = true ->
  (inMultiline (step s line) = false
   <-> byte_at line (String.length line - 1) = Some (quote s))
  /\ (byte_at line (String.length line - 1) <> Some (quote s) ->
      step s line = {| out := out s; key := key s;
                       value := value s ++ line ++ nl;
                       inMultiline := true; quote := quote s |}).
Proof.
  intros Hm. unfold step. rewrite Hm. cbn [negb].
  pose proof (HasSuffix_byte line (quote s)) as Hiff.
  destruct (HasSuffix line (string_of_byte (quote s))); cbn [inMultiline].
  - split; [split; intros _; [now apply Hiff | reflexivity]|].
    intros Hne. contradiction Hne. now apply Hiff.
  - split; [|reflexivity].
    split; [discriminate|]. intros Hb. apply Hiff in Hb. discriminate.
Qed.

Lemma closing_decided_by_last_byte_witness :
  inMultiline (run pinit ["K='one"; "two' "; ""]) = true
  /\ value (run pinit ["K='one"; "two' "]) = "one" ++ nl ++ "two' " ++ nl.
Proof.
  destruct (closing_decided_by_last_byte (run pinit ["K='one"]) "two' " eq_refl)
    as [_ Hopen].
  split; [reflexivity|].
  change (run pinit ["K='one"; "two' "]) with (step (run pinit ["K='one"]) "two' ").
  rewrite Hopen; [reflexivity | vm_compute; discriminate].
Defined.

End ShapeExtras.
